(** * qqbot: the API client (token cache, msg_seq tracker, requests)

    A shallow embedding of the access-token cache, the [msg_seq] tracker, the
    request wrapper and the send / upload functions, with the properties of
    the specification stated and proved over it.

    Conventions of the model.
    - Strings are [string]; [startsWith] is a prefix test and [split(",")]
      cuts at every comma.
    - Numbers that the code only adds to and compares (sequence counters,
      epoch milliseconds, lifetimes in seconds) are integers in [Z];
      JavaScript numbers are exact on integers up to 2^53.
    - The module-level [Map] is an association list in insertion order, since
      eviction depends on that order.
    - An [async] function is a function of the state it reads, of the clock
      readings it takes and of the answer the network gives; it returns its
      outcome, the new state and the list of requests it issued.
    - The JSON runtime (parsed bodies, [JSON.stringify] of a parsed body) is
      an interface, [JsonRuntime].  A parsed body may be [null], on which
      reading a property throws a [TypeError]; on any other body a property
      is missing ([undefined] or [null]) or present, and a present property
      is read at the type the source declares for it. *)

From Stdlib Require Import List String Ascii ZArith Lia Bool Arith DecimalString.
Import ListNotations.
Local Open Scope string_scope.
Local Open Scope Z_scope.

Set Implicit Arguments.

(** ** The insertion-ordered [Map<string, number>] *)

Module JsMap.

(** Entries in insertion order, oldest first. *)
Definition t : Type := list (string * Z).

Definition empty : t := [].

(** [m.size] *)
Definition size (m : t) : nat := List.length m.

(** [m.keys()], in insertion order. *)
Definition keys (m : t) : list string := map fst m.

(** [m.get(k)]; [None] is [undefined]. *)
Fixpoint get (m : t) (k : string) : option Z :=
  match m with
  | [] => None
  | (k', v) :: m' => if String.eqb k' k then Some v else get m' k
  end.

(** [m.set(k, v)]: an existing key keeps its position, a new key goes
    last. *)
Fixpoint set (m : t) (k : string) (v : Z) : t :=
  match m with
  | [] => [(k, v)]
  | (k', v') :: m' =>
      if String.eqb k' k then (k', v) :: m' else (k', v') :: set m' k v
  end.

(** [m.delete(k)] *)
Definition delete (m : t) (k : string) : t :=
  filter (fun e => negb (String.eqb (fst e) k)) m.

End JsMap.

(** ** The [msg_seq] tracker *)

(** [x ?? d] on an optional value. *)
Definition nullish {A : Type} (x : option A) (d : A) : A :=
  match x with Some a => a | None => d end.

(** The loop [for (let i = 0; i < 500; i++) msgSeqTracker.delete(keys[i])],
    started at index [i] with [n] rounds to go.  Past the end of [keys],
    [keys[i]] is [undefined], which is no key of the map. *)
Fixpoint evict_loop (keys : list string) (i n : nat) (m : JsMap.t) : JsMap.t :=
  match n with
  | O => m
  | S n' =>
      let m' := match nth_error keys i with
                | Some k => JsMap.delete m k
                | None => m
                end in
      evict_loop keys (S i) n' m'
  end.

(** [getNextMsgSeq(msgId)]: the number returned and the tracker afterwards. *)
Definition getNextMsgSeq (msgId : string) (msgSeqTracker : JsMap.t)
  : Z * JsMap.t :=
  let current := nullish (JsMap.get msgSeqTracker msgId) 0 in
  let next := current + 1 in
  let tracker1 := JsMap.set msgSeqTracker msgId next in
  let tracker2 :=
    if Nat.ltb 1000 (JsMap.size tracker1)
    then evict_loop (JsMap.keys tracker1) 0 500 tracker1
    else tracker1 in
  (next, tracker2).

(** A run of calls, one per identifier of the list, threaded through the
    tracker: the numbers returned, in order, and the final tracker. *)
Fixpoint run (ids : list string) (m : JsMap.t) : list Z * JsMap.t :=
  match ids with
  | [] => ([], m)
  | id :: ids' =>
      let '(n, m1) := getNextMsgSeq id m in
      let '(ns, m2) := run ids' m1 in
      (n :: ns, m2)
  end.

(** The tracker after a run that started with the module freshly loaded. *)
Definition tracker_after (ids : list string) : JsMap.t :=
  snd (run ids JsMap.empty).

(** The numbers a run returned for one identifier, in order. *)
Fixpoint results_for (id : string) (ids : list string) (ns : list Z) : list Z :=
  match ids, ns with
  | i :: ids', n :: ns' =>
      if String.eqb i id then n :: results_for id ids' ns'
      else results_for id ids' ns'
  | _, _ => []
  end.

(** The value a call stores and returns. *)
Definition next_of (msgId : string) (m : JsMap.t) : Z :=
  nullish (JsMap.get m msgId) 0 + 1.

(** What every tracker reached from the empty one satisfies. *)
Definition tracker_inv (m : JsMap.t) : Prop :=
  NoDup (JsMap.keys m) /\ (JsMap.size m <= 1000)%nat.

(** How many calls of a run were made on one identifier. *)
Fixpoint calls_on (id : string) (ids : list string) : nat :=
  match ids with
  | [] => O
  | i :: ids' => if String.eqb i id then S (calls_on id ids') else calls_on id ids'
  end.

(** The identifiers of a run, each once. *)
Definition distinct_ids (ids : list string) : list string :=
  nodup string_dec ids.

(** The distinct identifiers of a tracker and of the calls to come. *)
Definition pending (m : JsMap.t) (ids : list string) : list string :=
  distinct_ids (JsMap.keys m ++ ids).

(** The call stores its identifier and finds more than 1000 entries: the
    test [msgSeqTracker.size > 1000] of the source, on the tracker as the
    call found it. *)
Definition overflows (msgId : string) (m : JsMap.t) : bool :=
  Nat.ltb 1000
    (JsMap.size (JsMap.set m msgId (nullish (JsMap.get m msgId) 0 + 1))).

(** The [n] identifiers inserted last, oldest first. *)
Definition most_recent (n : nat) (m : JsMap.t) : list string :=
  skipn (JsMap.size m - n) (JsMap.keys m).

(** The eviction as the specification words it: the counter is looked up
    and incremented, the oldest 500 entries go, then the new identifier is
    stored. *)
Definition evict_oldest (n : nat) (m : JsMap.t) : JsMap.t := skipn n m.

Definition evict_then_insert (msgId : string) (m : JsMap.t) : JsMap.t :=
  JsMap.set (evict_oldest 500 m) msgId (nullish (JsMap.get m msgId) 0 + 1).

(** ** Values thrown, errors raised, requests and responses *)

(** What a [catch (err)] receives: an [Error] object with its [message], or
    any other value, kept as the text [String(err)] gives for it. *)
Inductive thrown : Type :=
| ThrownError (message : string)
| ThrownValue (text : string).

(** [err instanceof Error ? err.message : String(err)] *)
Definition err_text (err : thrown) : string :=
  match err with
  | ThrownError message => message
  | ThrownValue text => text
  end.

(** What a call throws: [new Error(message)], which the module creates
    itself, or the [TypeError] the runtime raises when a property of [null]
    is read. *)
Inductive JsError : Type :=
| Error (message : string)
| TypeError (message : string).


(** The source throws plain [Error] objects; the error kinds of the
    specification are told apart by how the message starts. *)
Inductive ErrorKind : Type :=
  NetworkError | ResponseParseError | AuthError | ApiError.

Definition kind_of (e : JsError) : option ErrorKind :=
  match e with
  | Error msg =>
      if String.prefix "Network error" msg then Some NetworkError
      else if String.prefix "Failed to parse" msg then Some ResponseParseError
      else if String.prefix "Failed to get access_token" msg then Some AuthError
      else if String.prefix "API Error" msg then Some ApiError
      else None
  | TypeError _ => None
  end.

(** [t] occurs in [s]. *)
Definition includes (s t : string) : Prop :=
  exists pre post : string, s = pre ++ t ++ post.

(** The values the module puts into the objects it sends. *)
Inductive jsval : Type :=
| VUndefined
| VNum (n : Z)
| VStr (s : string).

(** An object literal: its properties in the order written. *)
Definition jsobj : Type := list (string * jsval).

Definition is_undefined (v : jsval) : bool :=
  match v with VUndefined => true | _ => false end.

(** [JSON.stringify] of an object built by the module, as the members of the
    JSON document it writes: a property whose value is [undefined] is left
    out. *)
Definition JSON_stringify_obj (o : jsobj) : jsobj :=
  filter (fun p => negb (is_undefined (snd p))) o.

(** The member [k] of a JSON document, [None] when it has none. *)
Fixpoint member (doc : jsobj) (k : string) : option jsval :=
  match doc with
  | [] => None
  | (k', v) :: doc' => if String.eqb k' k then Some v else member doc' k
  end.

(** The [RequestInit] handed to [fetch]. *)
Record RequestInit : Type := {
  method : string;
  headers : list (string * string);
  body : option jsobj
}.

(** One call of [fetch(url, options)]. *)
Record Request : Type := {
  url : string;
  options : RequestInit
}.

(** The body of the one request in a list of requests issued. *)
Definition request_body (requests : list Request) : option jsobj :=
  match requests with
  | [r] => body (options r)
  | _ => None
  end.

(** The runtime's JSON values.  A parsed body is opaque.  It is serialised
    by [JSON.stringify].  It may be [null] ([is_null]); reading the property
    [k] of [null] throws a [TypeError], whose message, the runtime's own, is
    [null_read_message k].  On any other body the property [k] is read in
    three ways:
    - [prop_text d k] is [None] when [d[k]] is [undefined] or [null], the
      case in which [??] takes its right-hand side, and otherwise the text a
      template literal makes of [d[k]], a string member being its own text;
    - [prop_string d k] is [d[k]] when that is a string, the type the source
      declares for [access_token], [message], [id] and [url];
    - [prop_number d k] is [d[k]] when that is a number, the type the source
      declares for [expires_in].
    A member that is present with another type than the declared one is
    outside what the source declares; the typed reads give [None] for it. *)
Class JsonRuntime (json : Type) : Type := {
  JSON_stringify : json -> string;
  is_null : json -> bool;
  null_read_message : string -> string;
  prop_text : json -> string -> option string;
  prop_string : json -> string -> option string;
  prop_number : json -> string -> option Z;
  prop_string_text :
    forall (d : json) (k s : string),
      prop_string d k = Some s -> prop_text d k = Some s;
  prop_number_present :
    forall (d : json) (k : string) (n : Z),
      prop_number d k = Some n -> prop_text d k <> None;
  prop_text_not_null :
    forall (d : json) (k t : string),
      prop_text d k = Some t -> is_null d = false
}.

(** A [Response]: its HTTP status and what [response.json()] does. *)
Record Response (json : Type) : Type := {
  status : Z;
  json_result : thrown + json
}.

(** [res.ok]: the status is in the range 200-299. *)
Definition ok {json : Type} (res : Response json) : bool :=
  (200 <=? status res) && (status res <=? 299).

(** What [await fetch(...)] does: it throws, or it yields a response. *)
Definition FetchOutcome (json : Type) : Type := (thrown + Response json)%type.

(** The network as a call sees it. *)
Definition Fetch (json : Type) : Type := string -> RequestInit -> FetchOutcome json.

(** Truthiness of a [string]: every string but the empty one. *)
Definition truthy (s : string) : bool := negb (String.eqb s EmptyString).

(** ** The token cache *)

Definition API_BASE : string := "https://api.sgroup.qq.com".
Definition TOKEN_URL : string := "https://bots.qq.com/app/getAppAccessToken".

(** [cachedToken]'s record; the variable itself is an [option], [None] for
    [null]. *)
Record Credential : Type := {
  token : string;
  expiresAt : Z
}.

(** The outcome of a call on the token cache. *)
Record TokenOutcome : Type := {
  token_result : JsError + string;
  cachedToken_after : option Credential;
  token_requests : list Request
}.

(** The request [getAccessToken] sends. *)
Definition token_request (appId clientSecret : string) : Request :=
  {| url := TOKEN_URL;
     options :=
       {| method := "POST";
          headers := [("Content-Type", "application/json")];
          body := Some (JSON_stringify_obj
                          [("appId", VStr appId);
                           ("clientSecret", VStr clientSecret)]) |} |}.

(** The part of [getAccessToken] after the cache test: the request to the
    token endpoint and what follows from its answer.  [issued] is the reading
    of [Date.now()] when the credential is stored. *)
Definition refresh_token {json : Type} `{JsonRuntime json}
    (appId clientSecret : string) (cachedToken : option Credential)
    (fetch : Fetch json) (issued : Z) : TokenOutcome :=
  let req := token_request appId clientSecret in
  let throw e :=
    {| token_result := inl e;
       cachedToken_after := cachedToken;
       token_requests := [req] |} in
  let fail msg := throw (Error msg) in
  match fetch (url req) (options req) with
  | inl err =>
      fail ("Network error getting access_token: " ++ err_text err)
  | inr response =>
      match json_result response with
      | inl err =>
          fail ("Failed to parse access_token response: " ++ err_text err)
      | inr data =>
          if is_null data
          then throw (TypeError (null_read_message "access_token"))
          else
            match prop_string data "access_token" with
            | Some access_token =>
                if negb (truthy access_token)
                then fail ("Failed to get access_token: " ++ JSON_stringify data)
                else
                  let c :=
                    {| token := access_token;
                       expiresAt :=
                         issued
                         + nullish (prop_number data "expires_in") 7200
                           * 1000 |} in
                  {| token_result := inr (token c);
                     cachedToken_after := Some c;
                     token_requests := [req] |}
            | None =>
                fail ("Failed to get access_token: " ++ JSON_stringify data)
            end
      end
  end.

(** [getAccessToken(appId, clientSecret)] with [cachedToken] as it stands,
    [now] the reading of [Date.now()] at the cache test and [fetch] the
    network. *)
Definition getAccessToken {json : Type} `{JsonRuntime json}
    (appId clientSecret : string) (cachedToken : option Credential)
    (now : Z) (fetch : Fetch json) (issued : Z) : TokenOutcome :=
  match cachedToken with
  | Some c =>
      if now <? expiresAt c - 5 * 60 * 1000
      then {| token_result := inr (token c);
              cachedToken_after := cachedToken;
              token_requests := [] |}
      else refresh_token appId clientSecret cachedToken fetch issued
  | None => refresh_token appId clientSecret cachedToken fetch issued
  end.

(** No credential is cached, or the cached one is not more than 5 minutes
    short of its expiry. *)
Definition no_fresh_credential (cachedToken : option Credential) (now : Z)
  : Prop :=
  match cachedToken with
  | Some c => expiresAt c - now <= 300000
  | None => True
  end.

(** [clearTokenCache()] *)
Definition clearTokenCache (cachedToken : option Credential) : option Credential :=
  None.

(** ** The request wrapper *)

(** The outcome of [apiRequest]: the parsed body or the error thrown, and the
    requests issued. *)
Record ApiOutcome (A : Type) : Type := {
  api_result : JsError + A;
  api_requests : list Request
}.

(** The request [apiRequest] builds; an object given as [body] is truthy, so
    it is always serialised. *)
Definition api_request (accessToken method_ path : string)
    (body_ : option jsobj) : Request :=
  {| url := API_BASE ++ path;
     options :=
       {| method := method_;
          headers := [("Authorization", "QQBot " ++ accessToken);
                      ("Content-Type", "application/json")];
          body := option_map JSON_stringify_obj body_ |} |}.

(** [apiRequest(accessToken, method, path, body?)] *)
Definition apiRequest {json : Type} `{JsonRuntime json}
    (accessToken method_ path : string) (body_ : option jsobj)
    (fetch : Fetch json) : ApiOutcome json :=
  let req := api_request accessToken method_ path body_ in
  {| api_requests := [req];
     api_result :=
       match fetch (url req) (options req) with
       | inl err =>
           inl (Error ("Network error [" ++ path ++ "]: " ++ err_text err))
       | inr res =>
           match json_result res with
           | inl err =>
               inl (Error ("Failed to parse response [" ++ path ++ "]: "
                           ++ err_text err))
           | inr data =>
               if negb (ok res)
               then
                 if is_null data
                 then inl (TypeError (null_read_message "message"))
                 else inl (Error ("API Error [" ++ path ++ "]: "
                                  ++ nullish (prop_text data "message")
                                       (JSON_stringify data)))
               else inr data
           end
       end |}.

(** ** Sending text *)

(** The outcome of a send that may consult the tracker. *)
Record SendOutcome (A : Type) : Type := {
  send_result : JsError + A;
  msgSeqTracker_after : JsMap.t;
  send_requests : list Request
}.

(** [...(msgId ? { msg_id: msgId } : {})] *)
Definition spread_msg_id (msgId : option string) : jsobj :=
  match msgId with
  | Some id => if truthy id then [("msg_id", VStr id)] else []
  | None => []
  end.

(** [msgId ? getNextMsgSeq(msgId) : 1], with the tracker afterwards. *)
Definition msg_seq_for (msgId : option string) (msgSeqTracker : JsMap.t)
  : Z * JsMap.t :=
  match msgId with
  | Some id => if truthy id then getNextMsgSeq id msgSeqTracker
               else (1, msgSeqTracker)
  | None => (1, msgSeqTracker)
  end.

(** The object both text sends with a sequence number put in the body. *)
Definition text_body (content : string) (msgSeq : Z) (msgId : option string)
  : jsobj :=
  ([("content", VStr content); ("msg_type", VNum 0); ("msg_seq", VNum msgSeq)]
   ++ spread_msg_id msgId)%list.

(** [sendC2CMessage(accessToken, openid, content, msgId?)] *)
Definition sendC2CMessage {json : Type} `{JsonRuntime json}
    (accessToken openid content : string) (msgId : option string)
    (msgSeqTracker : JsMap.t) (fetch : Fetch json) : SendOutcome json :=
  let '(msgSeq, tracker') := msg_seq_for msgId msgSeqTracker in
  let r := apiRequest accessToken "POST" ("/v2/users/" ++ openid ++ "/messages")
             (Some (text_body content msgSeq msgId)) fetch in
  {| send_result := api_result r;
     msgSeqTracker_after := tracker';
     send_requests := api_requests r |}.

(** [sendGroupMessage(accessToken, groupOpenid, content, msgId?)] *)
Definition sendGroupMessage {json : Type} `{JsonRuntime json}
    (accessToken groupOpenid content : string) (msgId : option string)
    (msgSeqTracker : JsMap.t) (fetch : Fetch json) : SendOutcome json :=
  let '(msgSeq, tracker') := msg_seq_for msgId msgSeqTracker in
  let r := apiRequest accessToken "POST"
             ("/v2/groups/" ++ groupOpenid ++ "/messages")
             (Some (text_body content msgSeq msgId)) fetch in
  {| send_result := api_result r;
     msgSeqTracker_after := tracker';
     send_requests := api_requests r |}.

(** [sendChannelMessage(accessToken, channelId, content, msgId?)] *)
Definition sendChannelMessage {json : Type} `{JsonRuntime json}
    (accessToken channelId content : string) (msgId : option string)
    (fetch : Fetch json) : ApiOutcome json :=
  apiRequest accessToken "POST" ("/channels/" ++ channelId ++ "/messages")
    (Some ([("content", VStr content)] ++ spread_msg_id msgId)%list) fetch.

(** ** Image upload *)

(** [s.split(sep)] for a one-character separator: the pieces between the
    separators, at least one piece. *)
Fixpoint split (sep : ascii) (s : string) : list string :=
  match s with
  | EmptyString => [EmptyString]
  | String c s' =>
      if Ascii.eqb c sep then EmptyString :: split sep s'
      else match split sep s' with
           | piece :: pieces => String c piece :: pieces
           | [] => [String c EmptyString]
           end
  end.

(** A [string | undefined] as a property value. *)
Definition val_of (s : option string) : jsval :=
  match s with Some s' => VStr s' | None => VUndefined end.

(** The [payload] object [uploadImage] builds from [imageData]. *)
Definition upload_payload (imageData : string) : jsobj :=
  if String.prefix "http" imageData then
    [("url", VStr imageData)]
  else if String.prefix "data:" imageData then
    [("file_data", val_of (nth_error (split "," imageData) 1))]
  else
    [("file_data", VStr imageData)].

(** [uploadImage(accessToken, imageData)]; the result is [data.id]. *)
Definition uploadImage {json : Type} `{JsonRuntime json}
    (accessToken imageData : string) (fetch : Fetch json)
  : ApiOutcome (option string) :=
  let r := apiRequest accessToken "POST" "/v2/assets"
             (Some (upload_payload imageData)) fetch in
  {| api_requests := api_requests r;
     api_result :=
       match api_result r with
       | inl e => inl e
       | inr data =>
           if is_null data then inl (TypeError (null_read_message "id"))
           else inr (prop_string data "id")
       end |}.

(** ** Vocabulary of the statements *)

(** The one request of a send carries the member [msg_id] as given ([None]:
    no such member) and the member [msg_seq] as given. *)
Definition carries {A : Type} (out : SendOutcome A)
    (msg_id : option jsval) (msg_seq : Z) : Prop :=
  exists doc : jsobj,
    request_body (send_requests out) = Some doc /\
    member doc "msg_id" = msg_id /\
    member doc "msg_seq" = Some (VNum msg_seq).

(** The character [c] occurs in [s]. *)
Fixpoint contains_char (c : ascii) (s : string) : bool :=
  match s with
  | EmptyString => false
  | String c' s' => Ascii.eqb c' c || contains_char c s'
  end.

(** The input with everything up to and including its first comma stripped,
    as the specification words the data-URI case; [None] without a comma. *)
Fixpoint after_first_comma (s : string) : option string :=
  match s with
  | EmptyString => None
  | String c s' => if Ascii.eqb c "," then Some s' else after_first_comma s'
  end.

(** ** Sample inputs *)

(** A small JSON runtime to run the functions on: a parsed body is a flat
    object with string and number members, written back member by member. *)
Definition sample_text_of (v : jsval) : string :=
  match v with
  | VUndefined => "undefined"
  | VNum n => NilZero.string_of_int (Z.to_int n)
  | VStr s => s
  end.

Fixpoint sample_stringify (o : jsobj) : string :=
  match o with
  | [] => EmptyString
  | (k, v) :: o' => k ++ ":" ++ sample_text_of v ++ ";" ++ sample_stringify o'
  end.

(** The message of the [TypeError] for a property read on [null]. *)
Definition sample_null_read_message (k : string) : string :=
  "Cannot read properties of null (reading '" ++ k ++ "')".

Definition sample_prop_text (o : jsobj) (k : string) : option string :=
  match member o k with
  | Some (VStr s) => Some s
  | Some (VNum n) => Some (sample_text_of (VNum n))
  | _ => None
  end.

Definition sample_prop_string (o : jsobj) (k : string) : option string :=
  match member o k with Some (VStr s) => Some s | _ => None end.

Definition sample_prop_number (o : jsobj) (k : string) : option Z :=
  match member o k with Some (VNum n) => Some n | _ => None end.

#[export, refine] Instance sample_runtime : JsonRuntime jsobj := {
  JSON_stringify := sample_stringify;
  is_null := fun _ => false;
  null_read_message := sample_null_read_message;
  prop_text := sample_prop_text;
  prop_string := sample_prop_string;
  prop_number := sample_prop_number
}.
Proof.
  - intros d k s. unfold sample_prop_string, sample_prop_text.
    destruct (member d k) as [[| |]|]; congruence.
  - intros d k n. unfold sample_prop_number, sample_prop_text.
    destruct (member d k) as [[| |]|]; congruence.
  - reflexivity.
Defined.

(** The same bodies and [null], which is [None]. *)
#[export, refine] Instance nullable_runtime : JsonRuntime (option jsobj) := {
  JSON_stringify := fun d =>
    match d with Some o => sample_stringify o | None => "null" end;
  is_null := fun d => match d with Some _ => false | None => true end;
  null_read_message := sample_null_read_message;
  prop_text := fun d k =>
    match d with Some o => sample_prop_text o k | None => None end;
  prop_string := fun d k =>
    match d with Some o => sample_prop_string o k | None => None end;
  prop_number := fun d k =>
    match d with Some o => sample_prop_number o k | None => None end
}.
Proof.
  - intros [o|] k s; [|discriminate]. unfold sample_prop_string, sample_prop_text.
    destruct (member o k) as [[| |]|]; congruence.
  - intros [o|] k n; [|discriminate]. unfold sample_prop_number, sample_prop_text.
    destruct (member o k) as [[| |]|]; congruence.
  - intros [o|] k t; [reflexivity | discriminate].
Defined.

(** A network that answers every request with the given status and the body
    [null]. *)
Definition answers_null (status_ : Z) : Fetch (option jsobj) :=
  fun _ _ => inr {| status := status_; json_result := inr None |}.

(** A network that answers every request with the given status and body. *)
Definition answers (status_ : Z) (data : jsobj) : Fetch jsobj :=
  fun _ _ => inr {| status := status_; json_result := inr data |}.

(** Pairwise distinct identifiers: the decimal numerals. *)
Definition id_of (n : nat) : string :=
  NilEmpty.string_of_uint (Nat.to_uint n).

Definition ids_from (start count : nat) : list string :=
  map id_of (seq start count).

(** A run that calls on ["a"], then on 1000 other identifiers, then on ["a"]
    again. *)
Definition evicting_run : list string :=
  ("a" :: ids_from 0 1000 ++ ["a"])%list.

(** ** The remaining functions of the module *)

(** [getGatewayUrl(accessToken)]; the result is [data.url]. *)
Definition getGatewayUrl {json : Type} `{JsonRuntime json}
    (accessToken : string) (fetch : Fetch json) : ApiOutcome (option string) :=
  let r := apiRequest accessToken "GET" "/gateway" None fetch in
  {| api_requests := api_requests r;
     api_result :=
       match api_result r with
       | inl e => inl e
       | inr data =>
           if is_null data then inl (TypeError (null_read_message "url"))
           else inr (prop_string data "url")
       end |}.

(** [sendProactiveC2CMessage(accessToken, openid, content)] *)
Definition sendProactiveC2CMessage {json : Type} `{JsonRuntime json}
    (accessToken openid content : string) (fetch : Fetch json)
  : ApiOutcome json :=
  apiRequest accessToken "POST" ("/v2/users/" ++ openid ++ "/messages")
    (Some [("content", VStr content); ("msg_type", VNum 0)]) fetch.

(** [sendProactiveGroupMessage(accessToken, groupOpenid, content)] *)
Definition sendProactiveGroupMessage {json : Type} `{JsonRuntime json}
    (accessToken groupOpenid content : string) (fetch : Fetch json)
  : ApiOutcome json :=
  apiRequest accessToken "POST" ("/v2/groups/" ++ groupOpenid ++ "/messages")
    (Some [("content", VStr content); ("msg_type", VNum 0)]) fetch.

(** The nested values the image sends serialise into their [content]: an
    object literal with its keys, an array literal, a number, a string. *)
#[warnings="-register-all"] Inductive jstree : Type :=
| TNum (n : Z)
| TStr (s : string)
| TObj (fields : list (string * jstree))
| TArr (items : list jstree).

(** [JSON.stringify] of such a value, as the runtime writes it. *)
Class JsonWriter : Type := {
  JSON_stringify_value : jstree -> string
}.

(** [{ 1: { 1: imageUuid } }] *)
Definition image_content (imageUuid : string) : jstree :=
  TObj [("1", TObj [("1", TStr imageUuid)])].

(** [[{ type: 7, data: { file: imageUuid } }]] *)
Definition channel_image_content (imageUuid : string) : jstree :=
  TArr [TObj [("type", TNum 7); ("data", TObj [("file", TStr imageUuid)])]].

(** [sendC2CImageMessage(accessToken, openid, imageUuid)] *)
Definition sendC2CImageMessage {json : Type} `{JsonRuntime json} `{JsonWriter}
    (accessToken openid imageUuid : string) (fetch : Fetch json)
  : ApiOutcome json :=
  let msgSeq := 1 in
  apiRequest accessToken "POST" ("/v2/users/" ++ openid ++ "/messages")
    (Some [("msg_type", VNum 7);
           ("msg_seq", VNum msgSeq);
           ("content", VStr (JSON_stringify_value (image_content imageUuid)))])
    fetch.

(** [sendChannelImageMessage(accessToken, channelId, imageUuid)] *)
Definition sendChannelImageMessage {json : Type} `{JsonRuntime json}
    `{JsonWriter} (accessToken channelId imageUuid : string)
    (fetch : Fetch json) : ApiOutcome json :=
  apiRequest accessToken "POST" ("/channels/" ++ channelId ++ "/messages")
    (Some [("msg_id", VStr EmptyString);
           ("content",
            VStr (JSON_stringify_value (channel_image_content imageUuid)))])
    fetch.

(** [sendGroupImageMessage(accessToken, groupOpenid, imageUuid)] *)
Definition sendGroupImageMessage {json : Type} `{JsonRuntime json}
    `{JsonWriter} (accessToken groupOpenid imageUuid : string)
    (fetch : Fetch json) : ApiOutcome json :=
  let msgSeq := 1 in
  apiRequest accessToken "POST" ("/v2/groups/" ++ groupOpenid ++ "/messages")
    (Some [("msg_type", VNum 7);
           ("msg_seq", VNum msgSeq);
           ("content", VStr (JSON_stringify_value (image_content imageUuid)))])
    fetch.

(** Every counter of the tracker is at least 1 and at most the number of
    calls made so far on its identifier, [history] being those calls. *)
Definition counters_within (history : list string) (m : JsMap.t) : Prop :=
  Forall (fun e => 1 <= snd e <= Z.of_nat (calls_on (fst e) history)) m.

(** A network on which every request fails in transport. *)
Definition unreachable (cause : string) : Fetch jsobj :=
  fun _ _ => inl (ThrownError cause).

(** A writer to run the image sends on. *)
Fixpoint sample_write (t : jstree) : string :=
  match t with
  | TNum n => NilZero.string_of_int (Z.to_int n)
  | TStr s => s
  | TObj fields =>
      "{" ++ (fix members (l : list (string * jstree)) : string :=
                match l with
                | [] => EmptyString
                | (k, v) :: l' => k ++ ":" ++ sample_write v ++ ";" ++ members l'
                end) fields ++ "}"
  | TArr items =>
      "[" ++ (fix elements (l : list jstree) : string :=
                match l with
                | [] => EmptyString
                | v :: l' => sample_write v ++ ";" ++ elements l'
                end) items ++ "]"
  end.

#[export] Instance sample_writer : JsonWriter := {
  JSON_stringify_value := sample_write
}.

Unset Implicit Arguments.

(** * Properties *)

(** ** The functions on small inputs *)

Example getNextMsgSeq_three_calls :
  run ["m1"; "m2"; "m1"; "m1"] JsMap.empty
  = ([1; 1; 2; 3], [("m1", 3); ("m2", 1)]).
Proof. reflexivity. Qed.

Example evict_loop_removes_the_oldest :
  evict_loop ["a"; "b"; "c"] 0 2 [("a", 1); ("b", 4); ("c", 2)] = [("c", 2)].
Proof. reflexivity. Qed.

Example getAccessToken_then_clear_then_again :
  let first :=
    getAccessToken "app" "secret" None 1000
      (answers 200 [("access_token", VStr "T1"); ("expires_in", VNum 100)])
      1001 in
  let second :=
    getAccessToken "app" "secret" (clearTokenCache (cachedToken_after first))
      1002 (answers 200 [("access_token", VStr "T2")]) 1003 in
  token_result first = inr "T1" /\
  token_result second = inr "T2" /\
  cachedToken_after second = Some {| token := "T2"; expiresAt := 7201003 |}.
Proof. repeat split. Qed.

Example getAccessToken_empty_token_is_rejected :
  token_result
    (getAccessToken "app" "secret" None 1000
       (answers 200 [("access_token", VStr EmptyString)]) 1001)
  = inl (Error "Failed to get access_token: access_token:;").
Proof. reflexivity. Qed.

Example split_data_uri :
  split "," "data:image/png;base64,AAAA" = ["data:image/png;base64"; "AAAA"].
Proof. reflexivity. Qed.

Example sendC2CMessage_reply_body :
  request_body
    (send_requests
       (sendC2CMessage "tok" "u1" "hello" (Some "m1") [("m1", 2)]
          (answers 200 [("id", VStr "x")])))
  = Some [("content", VStr "hello"); ("msg_type", VNum 0);
          ("msg_seq", VNum 3); ("msg_id", VStr "m1")].
Proof. reflexivity. Qed.

(** ** The insertion-ordered map *)

Module JsMapFacts.
Import JsMap.

Lemma get_app (a b : t) (k : string) :
  get (a ++ b)%list k =
  match get a k with Some v => Some v | None => get b k end.
Proof.
  induction a as [|[k' v'] a IH]; simpl; [reflexivity|].
  destruct (String.eqb k' k); [reflexivity | exact IH].
Qed.

Lemma get_None_iff (m : t) (k : string) :
  get m k = None <-> ~ In k (keys m).
Proof.
  induction m as [|[k' v'] m IH]; simpl.
  - tauto.
  - destruct (String.eqb_spec k' k) as [->|Hne].
    + split; [discriminate | intros Hn; exfalso; apply Hn; now left].
    + rewrite IH. tauto.
Qed.

Lemma get_Some_in (m : t) (k : string) (v : Z) :
  get m k = Some v -> In k (keys m).
Proof.
  intros Hg. destruct (in_dec string_dec k (keys m)) as [Hin|Hnin]; [exact Hin|].
  apply get_None_iff in Hnin. congruence.
Qed.

Lemma get_set_eq (m : t) (k : string) (v : Z) : get (set m k v) k = Some v.
Proof.
  induction m as [|[k' v'] m IH]; simpl.
  - now rewrite String.eqb_refl.
  - destruct (String.eqb k' k) eqn:E; simpl; rewrite E; [reflexivity | exact IH].
Qed.

Lemma get_set_neq (m : t) (k k' : string) (v : Z) :
  k <> k' -> get (set m k v) k' = get m k'.
Proof.
  intros Hne. induction m as [|[k0 v0] m IH]; simpl.
  - apply String.eqb_neq in Hne. now rewrite Hne.
  - destruct (String.eqb_spec k0 k) as [->|Hk]; simpl.
    + apply String.eqb_neq in Hne. now rewrite Hne.
    + destruct (String.eqb k0 k'); [reflexivity | exact IH].
Qed.

Lemma set_present (m : t) (k : string) (v : Z) :
  In k (keys m) -> keys (set m k v) = keys m.
Proof.
  induction m as [|[k' v'] m IH]; simpl; [tauto|].
  intros [->|Hin].
  - now rewrite String.eqb_refl.
  - destruct (String.eqb k' k); simpl; [reflexivity|]. f_equal. now apply IH.
Qed.

Lemma set_absent (m : t) (k : string) (v : Z) :
  ~ In k (keys m) -> set m k v = (m ++ [(k, v)])%list.
Proof.
  induction m as [|[k' v'] m IH]; simpl; [reflexivity|].
  intros Hn. destruct (String.eqb_spec k' k) as [->|Hk]; [tauto|].
  f_equal. apply IH. tauto.
Qed.

Lemma size_set_present (m : t) (k : string) (v : Z) :
  In k (keys m) -> size (set m k v) = size m.
Proof.
  intros Hin. unfold size.
  rewrite <- (length_map fst (set m k v)), <- (length_map fst m).
  change (map fst (set m k v)) with (keys (set m k v)).
  now rewrite set_present.
Qed.

Lemma size_set_absent (m : t) (k : string) (v : Z) :
  ~ In k (keys m) -> size (set m k v) = S (size m).
Proof.
  intros Hn. rewrite set_absent by exact Hn. unfold size.
  rewrite length_app. simpl. lia.
Qed.

Lemma NoDup_keys_set (m : t) (k : string) (v : Z) :
  NoDup (keys m) -> NoDup (keys (set m k v)).
Proof.
  intros Hnd. destruct (in_dec string_dec k (keys m)) as [Hin|Hnin].
  - now rewrite set_present.
  - rewrite set_absent by exact Hnin. unfold keys. rewrite map_app. simpl.
    apply NoDup_app; [exact Hnd | repeat constructor; simpl; tauto |].
    intros x Hx [<-|[]]. exact (Hnin Hx).
Qed.

Lemma delete_absent (m : t) (k : string) :
  ~ In k (keys m) -> delete m k = m.
Proof.
  induction m as [|[k' v'] m IH]; simpl; [reflexivity|].
  intros Hn. destruct (String.eqb_spec k' k) as [->|Hk]; [tauto|].
  simpl. f_equal. apply IH. tauto.
Qed.

Lemma keys_skipn (n : nat) (m : t) : keys (skipn n m) = skipn n (keys m).
Proof. unfold keys. symmetry. apply skipn_map. Qed.

Lemma keys_firstn (n : nat) (m : t) : keys (firstn n m) = firstn n (keys m).
Proof. unfold keys. symmetry. apply firstn_map. Qed.

Lemma NoDup_skipn {A : Type} (n : nat) (l : list A) :
  NoDup l -> NoDup (skipn n l).
Proof.
  revert l. induction n as [|n IH]; intros l Hnd; simpl; [exact Hnd|].
  destruct l as [|a l]; [constructor|]. apply IH. now inversion Hnd.
Qed.

Lemma NoDup_app_disjoint {A : Type} (l1 l2 : list A) (x : A) :
  NoDup (l1 ++ l2) -> In x l1 -> In x l2 -> False.
Proof.
  induction l1 as [|a l1 IH]; simpl; [tauto|].
  intros Hnd [->|H1] H2; inversion Hnd as [|? ? Hnin Hnd']; subst.
  - apply Hnin, in_or_app. now right.
  - now apply IH.
Qed.

Lemma NoDup_split_disjoint {A : Type} (n : nat) (l : list A) (x : A) :
  NoDup l -> In x (firstn n l) -> In x (skipn n l) -> False.
Proof.
  intros Hnd. rewrite <- (firstn_skipn n l) in Hnd.
  now apply NoDup_app_disjoint.
Qed.

End JsMapFacts.

(** ** The tracker: eviction and its invariant *)

Section TrackerFacts.
Import JsMap JsMapFacts.

Lemma getNextMsgSeq_fst (msgId : string) (m : JsMap.t) :
  fst (getNextMsgSeq msgId m) = next_of msgId m.
Proof. reflexivity. Qed.

Lemma delete_head_of_skipn (i : nat) (m : JsMap.t) (k : string) :
  NoDup (keys m) -> nth_error (keys m) i = Some k ->
  delete (skipn i m) k = skipn (S i) m.
Proof.
  revert m. induction i as [|i IH]; intros [|[k0 v0] m] Hnd Hk;
    try discriminate.
  - simpl in Hk. injection Hk as ->. inversion Hnd as [|? ? Hnin _]; subst.
    unfold delete. simpl. rewrite String.eqb_refl. simpl.
    now apply delete_absent.
  - simpl in Hk. inversion Hnd; subst.
    change (skipn (S i) ((k0, v0) :: m)) with (skipn i m).
    change (skipn (S (S i)) ((k0, v0) :: m)) with (skipn (S i) m).
    now apply IH.
Qed.

(** On a map with distinct keys the loop removes the entries [i], ...,
    [i + n - 1], one per round. *)
Lemma evict_loop_skipn (n i : nat) (m : JsMap.t) :
  NoDup (keys m) ->
  evict_loop (keys m) i n (skipn i m) = skipn (i + n) m.
Proof.
  intros Hnd. revert i. induction n as [|n IH]; intros i.
  - now rewrite Nat.add_0_r.
  - cbn [evict_loop]. replace (i + S n)%nat with (S i + n)%nat by lia.
    destruct (nth_error (keys m) i) as [k|] eqn:Hk.
    + rewrite (delete_head_of_skipn i m k Hnd Hk). apply IH.
    + apply nth_error_None in Hk. unfold keys in Hk. rewrite length_map in Hk.
      rewrite (skipn_all2 m Hk).
      rewrite <- (skipn_all2 (n := S i) m) at 1 by lia. apply IH.
Qed.

Lemma getNextMsgSeq_keeps (msgId : string) (m : JsMap.t) :
  overflows msgId m = false ->
  snd (getNextMsgSeq msgId m) = set m msgId (next_of msgId m).
Proof.
  unfold overflows, getNextMsgSeq, next_of. cbn [snd]. now intros ->.
Qed.

Lemma getNextMsgSeq_evicts (msgId : string) (m : JsMap.t) :
  NoDup (keys m) -> overflows msgId m = true ->
  snd (getNextMsgSeq msgId m) = skipn 500 (set m msgId (next_of msgId m)).
Proof.
  intros Hnd. unfold overflows, getNextMsgSeq, next_of. cbn [snd].
  intros ->.
  exact (evict_loop_skipn 500 0 _ (NoDup_keys_set _ _ _ Hnd)).
Qed.

Lemma size_set_le (m : JsMap.t) (k : string) (v : Z) :
  (size (set m k v) <= S (size m))%nat.
Proof.
  destruct (in_dec string_dec k (keys m)) as [Hin|Hnin].
  - rewrite size_set_present by exact Hin. lia.
  - rewrite size_set_absent by exact Hnin. lia.
Qed.

Lemma getNextMsgSeq_inv (msgId : string) (m : JsMap.t) :
  tracker_inv m -> tracker_inv (snd (getNextMsgSeq msgId m)).
Proof.
  intros [Hnd Hsz]. destruct (overflows msgId m) eqn:Hov.
  - rewrite getNextMsgSeq_evicts by assumption. split.
    + rewrite keys_skipn. apply NoDup_skipn. now apply NoDup_keys_set.
    + pose proof (size_set_le m msgId (next_of msgId m)) as Hle.
      unfold size in *. rewrite length_skipn. lia.
  - rewrite getNextMsgSeq_keeps by assumption. split.
    + now apply NoDup_keys_set.
    + unfold overflows in Hov. apply Nat.ltb_ge in Hov. exact Hov.
Qed.

Lemma run_snd_cons (id : string) (ids : list string) (m : JsMap.t) :
  snd (run (id :: ids) m) = snd (run ids (snd (getNextMsgSeq id m))).
Proof.
  cbn [run]. destruct (getNextMsgSeq id m) as [n m1]. cbn [snd].
  destruct (run ids m1) as [ns m2]. reflexivity.
Qed.

Lemma run_fst_cons (id : string) (ids : list string) (m : JsMap.t) :
  fst (run (id :: ids) m) =
  next_of id m :: fst (run ids (snd (getNextMsgSeq id m))).
Proof.
  cbn [run]. pose proof (getNextMsgSeq_fst id m) as Hn.
  destruct (getNextMsgSeq id m) as [n m1]. cbn [fst snd] in *. subst n.
  destruct (run ids m1) as [ns m2]. reflexivity.
Qed.

Lemma run_inv (ids : list string) (m : JsMap.t) :
  tracker_inv m -> tracker_inv (snd (run ids m)).
Proof.
  revert m. induction ids as [|id ids IH]; intros m Hinv; [exact Hinv|].
  rewrite run_snd_cons. apply IH. now apply getNextMsgSeq_inv.
Qed.

Lemma tracker_after_inv (ids : list string) : tracker_inv (tracker_after ids).
Proof.
  apply run_inv. split; [constructor | unfold size, empty; simpl; lia].
Qed.

End TrackerFacts.

Section EvictionFacts.
Import JsMap JsMapFacts.

(** An overflowing call found exactly 1000 entries and brought a new
    identifier; it leaves the 500 newest entries and its own. *)
Lemma overflow_shape (msgId : string) (m : JsMap.t) :
  tracker_inv m -> overflows msgId m = true ->
  size m = 1000%nat /\ ~ In msgId (keys m) /\
  snd (getNextMsgSeq msgId m) = (skipn 500 m ++ [(msgId, 1)])%list.
Proof.
  intros [Hnd Hsz] Hov. pose proof Hov as Hlt.
  unfold overflows in Hlt. apply Nat.ltb_lt in Hlt.
  assert (Hnin : ~ In msgId (keys m)).
  { intros Hin. rewrite size_set_present in Hlt by exact Hin. lia. }
  rewrite size_set_absent in Hlt by exact Hnin.
  assert (Hlen : size m = 1000%nat) by lia.
  repeat split; [exact Hlen | exact Hnin |].
  rewrite getNextMsgSeq_evicts by assumption.
  assert (Hnext : next_of msgId m = 1).
  { unfold next_of. apply get_None_iff in Hnin. now rewrite Hnin. }
  rewrite Hnext, set_absent by exact Hnin.
  rewrite skipn_app. unfold size in Hlen. rewrite Hlen.
  replace (500 - 1000)%nat with 0%nat by lia. reflexivity.
Qed.

Lemma in_skipn_in {A : Type} (n : nat) (l : list A) (x : A) :
  In x (skipn n l) -> In x l.
Proof.
  intros Hin. rewrite <- (firstn_skipn n l). apply in_or_app. now right.
Qed.

Lemma get_skipn_recent (n : nat) (m : JsMap.t) (k : string) :
  NoDup (keys m) -> In k (skipn n (keys m)) ->
  get (skipn n m) k = get m k.
Proof.
  intros Hnd Hin. rewrite <- (firstn_skipn n m) at 2. rewrite get_app.
  destruct (get (firstn n m) k) as [v|] eqn:Hg; [|reflexivity].
  exfalso. apply get_Some_in in Hg. rewrite keys_firstn in Hg.
  exact (NoDup_split_disjoint n (keys m) k Hnd Hg Hin).
Qed.

(** A call leaves the number it returns stored under its identifier, also
    when it evicts. *)
Lemma getNextMsgSeq_stores (msgId : string) (m : JsMap.t) :
  tracker_inv m ->
  get (snd (getNextMsgSeq msgId m)) msgId = Some (fst (getNextMsgSeq msgId m)).
Proof.
  intros Hinv. rewrite getNextMsgSeq_fst.
  destruct (overflows msgId m) eqn:Hov.
  - destruct (overflow_shape msgId m Hinv Hov) as (_ & Hnin & ->).
    assert (Hnin' : ~ In msgId (keys (skipn 500 m))).
    { rewrite keys_skipn. intros Hin. exact (Hnin (in_skipn_in _ _ _ Hin)). }
    rewrite get_app. apply get_None_iff in Hnin' as ->.
    apply get_None_iff in Hnin. unfold next_of. rewrite Hnin.
    cbn [get nullish]. now rewrite String.eqb_refl.
  - rewrite getNextMsgSeq_keeps by exact Hov. apply get_set_eq.
Qed.

End EvictionFacts.

(** ** The claims on the tracker *)

(** C1. When a call of [getNextMsgSeq] brings the number of tracked
    identifiers above 1000, the tracker it leaves is the one obtained by
    evicting the 500 oldest entries, in insertion order, and then storing the
    new identifier: it holds at most 501 identifiers (the new one with
    counter 1), the 500 identifiers inserted last before the call keep their
    counters, and the 500 oldest are gone. *)
Theorem getNextMsgSeq_evicts_oldest_500 (ids : list string) (msgId : string) :
  overflows msgId (tracker_after ids) = true ->
  snd (getNextMsgSeq msgId (tracker_after ids))
    = evict_then_insert msgId (tracker_after ids) /\
  fst (getNextMsgSeq msgId (tracker_after ids)) = 1 /\
  JsMap.get (snd (getNextMsgSeq msgId (tracker_after ids))) msgId = Some 1 /\
  (JsMap.size (snd (getNextMsgSeq msgId (tracker_after ids))) <= 501)%nat /\
  List.length (most_recent 500 (tracker_after ids)) = 500%nat /\
  (forall k : string,
      In k (most_recent 500 (tracker_after ids)) ->
      JsMap.get (snd (getNextMsgSeq msgId (tracker_after ids))) k
        = JsMap.get (tracker_after ids) k) /\
  (forall k : string,
      In k (firstn 500 (JsMap.keys (tracker_after ids))) ->
      JsMap.get (snd (getNextMsgSeq msgId (tracker_after ids))) k = None).
Proof.
  intros Hov. pose proof (tracker_after_inv ids) as Hinv.
  destruct (overflow_shape msgId _ Hinv Hov) as (Hlen & Hnin & Hshape).
  destruct Hinv as [Hnd _].
  set (m := tracker_after ids) in *. rewrite Hshape. clear Hshape.
  assert (Hnin' : ~ In msgId (JsMap.keys (skipn 500 m))).
  { rewrite JsMapFacts.keys_skipn. intros Hin.
    exact (Hnin (in_skipn_in _ _ _ Hin)). }
  assert (Hrecent : most_recent 500 m = skipn 500 (JsMap.keys m)).
  { unfold most_recent. rewrite Hlen.
    replace (1000 - 500)%nat with 500%nat by lia. reflexivity. }
  repeat split.
  - unfold evict_then_insert, evict_oldest.
    apply JsMapFacts.get_None_iff in Hnin as Hnone. rewrite Hnone.
    now rewrite JsMapFacts.set_absent.
  - rewrite getNextMsgSeq_fst. unfold next_of.
    apply JsMapFacts.get_None_iff in Hnin. now rewrite Hnin.
  - rewrite JsMapFacts.get_app.
    apply JsMapFacts.get_None_iff in Hnin' as ->. simpl.
    now rewrite String.eqb_refl.
  - unfold JsMap.size in *. rewrite length_app, length_skipn, Hlen. simpl. lia.
  - rewrite Hrecent, length_skipn. unfold JsMap.keys. rewrite length_map.
    unfold JsMap.size in Hlen. rewrite Hlen. lia.
  - intros k Hk. rewrite Hrecent in Hk. rewrite JsMapFacts.get_app.
    rewrite (get_skipn_recent 500 m k Hnd Hk).
    destruct (JsMap.get m k) as [v|] eqn:Hg; [reflexivity|].
    apply JsMapFacts.get_None_iff in Hg.
    exfalso. exact (Hg (in_skipn_in _ _ _ Hk)).
  - intros k Hk. apply JsMapFacts.get_None_iff.
    unfold JsMap.keys. rewrite map_app. intros Hin.
    apply in_app_or in Hin as [Hin|Hin].
    + change (map fst (skipn 500 m)) with (JsMap.keys (skipn 500 m)) in Hin.
      rewrite JsMapFacts.keys_skipn in Hin.
      exact (JsMapFacts.NoDup_split_disjoint 500 (JsMap.keys m) k Hnd Hk Hin).
    + simpl in Hin. destruct Hin as [<-|[]].
      apply Hnin. rewrite <- (firstn_skipn 500 (JsMap.keys m)).
      apply in_or_app. now left.
Qed.

Lemma getNextMsgSeq_evicts_oldest_500_witness :
  overflows (id_of 1000) (tracker_after (ids_from 0 1000)) = true /\
  snd (getNextMsgSeq (id_of 1000) (tracker_after (ids_from 0 1000)))
    = evict_then_insert (id_of 1000) (tracker_after (ids_from 0 1000)).
Proof.
  assert (Hov : overflows (id_of 1000) (tracker_after (ids_from 0 1000)) = true)
    by (vm_compute; reflexivity).
  split; [exact Hov|].
  exact (proj1 (getNextMsgSeq_evicts_oldest_500 (ids_from 0 1000) (id_of 1000) Hov)).
Defined.

Section SameIdentifier.
Variable id : string.

Lemma shift_counts (c : Z) (N : nat) :
  (c + 1 :: map (fun k => c + 1 + Z.of_nat k) (seq 1 N))%list
  = map (fun k => c + Z.of_nat k) (seq 1 (S N)).
Proof.
  cbn [seq map]. f_equal.
  rewrite <- (seq_shift N 1), map_map. apply map_ext. intros k. lia.
Qed.

(** With [id] the only entry, a call on [id] adds one and evicts nothing. *)
Lemma getNextMsgSeq_single (c : Z) :
  getNextMsgSeq id [(id, c)] = (c + 1, [(id, c + 1)]).
Proof.
  unfold getNextMsgSeq. cbn [JsMap.get JsMap.set]. rewrite String.eqb_refl.
  reflexivity.
Qed.

Lemma run_single (N : nat) (c : Z) :
  fst (run (repeat id N) [(id, c)])
  = map (fun k => c + Z.of_nat k) (seq 1 N).
Proof.
  revert c. induction N as [|N IH]; intros c; [reflexivity|].
  cbn [repeat]. rewrite run_fst_cons, getNextMsgSeq_single. cbn [snd].
  rewrite IH. unfold next_of. cbn [JsMap.get]. rewrite String.eqb_refl.
  apply shift_counts.
Qed.

Lemma run_same_id (N : nat) :
  fst (run (repeat id N) JsMap.empty) = map Z.of_nat (seq 1 N).
Proof.
  destruct N as [|N]; [reflexivity|].
  cbn [repeat]. rewrite run_fst_cons.
  change (snd (getNextMsgSeq id JsMap.empty)) with [(id, 1)].
  rewrite run_single. change (next_of id JsMap.empty) with (0 + 1).
  rewrite shift_counts. apply map_ext. intros k. lia.
Qed.

End SameIdentifier.

(** C2. In a run that consists only of calls of [getNextMsgSeq] on one
    identifier, the n-th call (n at least 1) returns exactly n.  Every call
    returns the counter of its identifier, 0 when it has none, plus one, and
    stores what it returns. *)
Theorem same_id_nth_call_returns_n (id : string) (N n : nat)
    (ids : list string) :
  ((1 <= n <= N)%nat ->
   nth_error (fst (run (repeat id N) JsMap.empty)) (n - 1) = Some (Z.of_nat n)) /\
  fst (getNextMsgSeq id (tracker_after ids))
    = nullish (JsMap.get (tracker_after ids) id) 0 + 1 /\
  JsMap.get (snd (getNextMsgSeq id (tracker_after ids))) id
    = Some (fst (getNextMsgSeq id (tracker_after ids))).
Proof.
  split; [|split].
  - intros Hn. rewrite run_same_id, nth_error_map, nth_error_seq.
    destruct (Nat.ltb_spec (n - 1) N) as [_|Hge]; [|lia].
    cbn [option_map]. do 2 f_equal. lia.
  - reflexivity.
  - apply getNextMsgSeq_stores, tracker_after_inv.
Qed.

Lemma same_id_nth_call_returns_n_witness :
  nth_error (fst (run (repeat "m1" 5) JsMap.empty)) (3 - 1) = Some 3.
Proof.
  apply (proj1 (same_id_nth_call_returns_n "m1" 5 3 [])). lia.
Defined.

Section Interleaving.
Import JsMap JsMapFacts.

Lemma keys_set_cases (m : JsMap.t) (k x : string) (v : Z) :
  In k (keys (set m x v)) -> In k (keys m) \/ k = x.
Proof.
  destruct (in_dec string_dec x (keys m)) as [Hin|Hnin].
  - rewrite set_present by exact Hin. now left.
  - rewrite set_absent by exact Hnin. unfold keys. rewrite map_app.
    intros H. apply in_app_or in H as [H|[<-|[]]]; [now left | now right].
Qed.

Lemma pending_step (m : JsMap.t) (x : string) (v : Z) (ids : list string) :
  (List.length (pending (set m x v) ids)
   <= List.length (pending m (x :: ids)))%nat.
Proof.
  apply NoDup_incl_length; [apply NoDup_nodup|].
  intros k Hk. apply nodup_In. apply nodup_In in Hk.
  apply in_or_app. apply in_app_or in Hk as [Hk|Hk].
  - apply keys_set_cases in Hk as [Hk | ->]; [now left | right; now left].
  - right. now right.
Qed.

Lemma size_le_pending (m : JsMap.t) (ids : list string) :
  NoDup (keys m) -> (size m <= List.length (pending m ids))%nat.
Proof.
  intros Hnd. unfold size. rewrite <- (length_map fst m).
  apply NoDup_incl_length; [exact Hnd|].
  intros k Hk. apply nodup_In, in_or_app. now left.
Qed.

(** While the tracker and the calls to come involve at most 1000
    identifiers, nothing is evicted and every call on [id] returns one more
    than the call on [id] before it. *)
Lemma run_without_eviction (id : string) (ids : list string) :
  forall m : JsMap.t,
    NoDup (keys m) ->
    (List.length (pending m ids) <= 1000)%nat ->
    results_for id ids (fst (run ids m))
    = map (fun k => nullish (get m id) 0 + Z.of_nat k)
          (seq 1 (calls_on id ids)).
Proof.
  induction ids as [|x ids IH]; intros m Hnd Hle; [reflexivity|].
  rewrite run_fst_cons.
  assert (Hkeep : snd (getNextMsgSeq x m) = set m x (next_of x m)).
  { apply getNextMsgSeq_keeps. unfold overflows. apply Nat.ltb_ge.
    fold (next_of x m).
    pose proof (size_le_pending (set m x (next_of x m)) ids
                  (NoDup_keys_set _ _ _ Hnd)).
    pose proof (pending_step m x (next_of x m) ids). lia. }
  rewrite Hkeep. cbn [results_for calls_on].
  rewrite IH;
    [| now apply NoDup_keys_set
     | pose proof (pending_step m x (next_of x m) ids); lia].
  destruct (String.eqb_spec x id) as [->|Hne].
  - rewrite get_set_eq. cbn [nullish]. unfold next_of.
    apply (shift_counts (nullish (get m id) 0)).
  - now rewrite get_set_neq.
Qed.

End Interleaving.

(** C3, as amended.  In every interleaved run of calls of [getNextMsgSeq]
    that involves at most 1000 distinct identifiers, the numbers returned for
    each identifier are 1, 2, 3, ... in order, one per call on it, whatever
    the calls on other identifiers in between. *)
Theorem interleaved_calls_count_per_id (ids : list string) (id : string) :
  (List.length (distinct_ids ids) <= 1000)%nat ->
  results_for id ids (fst (run ids JsMap.empty))
  = map Z.of_nat (seq 1 (calls_on id ids)).
Proof.
  intros Hle.
  rewrite (run_without_eviction id ids JsMap.empty); [reflexivity | constructor | exact Hle].
Qed.

Lemma interleaved_calls_count_per_id_witness :
  results_for "a" ["a"; "b"; "a"; "c"; "b"; "a"]
    (fst (run ["a"; "b"; "a"; "c"; "b"; "a"] JsMap.empty))
  = map Z.of_nat (seq 1 (calls_on "a" ["a"; "b"; "a"; "c"; "b"; "a"])).
Proof.
  apply (interleaved_calls_count_per_id ["a"; "b"; "a"; "c"; "b"; "a"] "a").
  vm_compute. lia.
Defined.

(** C3, as stated, fails: after a call on ["a"], calls on 1000 other
    identifiers evict its counter, and the second call on ["a"] returns 1
    again instead of 2. *)
Lemma interleaved_calls_counterexample :
  calls_on "a" evicting_run = 2%nat /\
  results_for "a" evicting_run (fst (run evicting_run JsMap.empty)) = [1; 1] /\
  results_for "a" evicting_run (fst (run evicting_run JsMap.empty))
  <> map Z.of_nat (seq 1 (calls_on "a" evicting_run)).
Proof.
  split; [vm_compute; reflexivity|].
  split; [vm_compute; reflexivity|].
  vm_compute. discriminate.
Qed.

(** ** Strings *)

Lemma append_nil_r (s : string) : s ++ EmptyString = s.
Proof. induction s as [|c s IH]; simpl; [reflexivity | now rewrite IH]. Qed.

Lemma append_assoc (s t u : string) : (s ++ t) ++ u = s ++ t ++ u.
Proof. induction s as [|c s IH]; simpl; [reflexivity | now rewrite IH]. Qed.

Lemma includes_suffix (s t : string) : includes (s ++ t) t.
Proof. exists s, EmptyString. now rewrite append_nil_r. Qed.

Lemma includes_middle (s t u : string) : includes (s ++ t ++ u) t.
Proof. now exists s, u. Qed.

(** ** The token cache *)

Section TokenCache.
Context {json : Type} `{JsonRuntime json}.
Variables appId clientSecret : string.

Lemma getAccessToken_hit (c : Credential) (now issued : Z) (fetch : Fetch json) :
  now < expiresAt c - 300000 ->
  getAccessToken appId clientSecret (Some c) now fetch issued
  = {| token_result := inr (token c);
       cachedToken_after := Some c;
       token_requests := [] |}.
Proof.
  intros Hlt. unfold getAccessToken.
  change (5 * 60 * 1000) with 300000.
  apply Z.ltb_lt in Hlt. now rewrite Hlt.
Qed.

Lemma getAccessToken_miss (cachedToken : option Credential) (now issued : Z)
    (fetch : Fetch json) :
  no_fresh_credential cachedToken now ->
  getAccessToken appId clientSecret cachedToken now fetch issued
  = refresh_token appId clientSecret cachedToken fetch issued.
Proof.
  unfold getAccessToken, no_fresh_credential.
  destruct cachedToken as [c|]; [|reflexivity].
  intros Hle. change (5 * 60 * 1000) with 300000.
  destruct (Z.ltb_spec now (expiresAt c - 300000)) as [Hlt|_]; [lia | reflexivity].
Qed.

Lemma refresh_token_requests (cachedToken : option Credential)
    (fetch : Fetch json) (issued : Z) :
  token_requests (refresh_token appId clientSecret cachedToken fetch issued)
  = [token_request appId clientSecret].
Proof.
  unfold refresh_token.
  destruct (fetch _ _) as [err|response]; [reflexivity|].
  destruct (json_result response) as [err|data]; [reflexivity|].
  destruct (is_null data); [reflexivity|].
  destruct (prop_string data "access_token") as [tok|]; [|reflexivity].
  destruct (negb (truthy tok)); reflexivity.
Qed.

Lemma refresh_token_failure (cachedToken : option Credential)
    (fetch : Fetch json) (issued : Z) (e : JsError) :
  token_result (refresh_token appId clientSecret cachedToken fetch issued)
    = inl e ->
  cachedToken_after (refresh_token appId clientSecret cachedToken fetch issued)
    = cachedToken.
Proof.
  unfold refresh_token.
  destruct (fetch _ _) as [err|response]; [reflexivity|].
  destruct (json_result response) as [err|data]; [reflexivity|].
  destruct (is_null data); [reflexivity|].
  destruct (prop_string data "access_token") as [tok|]; [|reflexivity].
  destruct (negb (truthy tok)); [reflexivity | discriminate].
Qed.

Lemma truthy_true (s : string) : s <> EmptyString -> truthy s = true.
Proof. intros Hne. unfold truthy. apply String.eqb_neq in Hne. now rewrite Hne. Qed.

(** A body on which a string was read is not [null]. *)
Lemma prop_string_not_null (data : json) (k s : string) :
  prop_string data k = Some s -> is_null data = false.
Proof.
  intros Hp. apply prop_string_text in Hp. now apply prop_text_not_null in Hp.
Qed.

(** A property that is missing is no string and no number. *)
Lemma prop_text_None_string (data : json) (k : string) :
  prop_text data k = None -> prop_string data k = None.
Proof.
  intros Ht. destruct (prop_string data k) as [s|] eqn:Hp; [|reflexivity].
  apply prop_string_text in Hp. congruence.
Qed.


Lemma refresh_token_success (cachedToken : option Credential)
    (fetch : Fetch json) (issued : Z) (response : Response json)
    (data : json) (tok : string) :
  fetch TOKEN_URL (options (token_request appId clientSecret)) = inr response ->
  json_result response = inr data ->
  prop_string data "access_token" = Some tok -> tok <> EmptyString ->
  refresh_token appId clientSecret cachedToken fetch issued
  = {| token_result := inr tok;
       cachedToken_after :=
         Some {| token := tok;
                 expiresAt :=
                   issued
                   + nullish (prop_number data "expires_in") 7200 * 1000 |};
       token_requests := [token_request appId clientSecret] |}.
Proof.
  intros Hf Hj Hp Hne. unfold refresh_token. cbn [url token_request].
  rewrite Hf, Hj, (prop_string_not_null data "access_token" tok Hp), Hp,
    (truthy_true tok Hne).
  reflexivity.
Qed.

End TokenCache.

(** C4. With a cached credential and the current time more than 5 minutes
    (300000 ms) before its expiry, [getAccessToken] returns the cached token,
    issues no request and leaves the cached credential as it was. *)
Theorem getAccessToken_returns_fresh_cached_token
    {json : Type} `{JsonRuntime json} (appId clientSecret : string)
    (c : Credential) (now issued : Z) (fetch : Fetch json) :
  300000 < expiresAt c - now ->
  token_result (getAccessToken appId clientSecret (Some c) now fetch issued)
    = inr (token c) /\
  token_requests (getAccessToken appId clientSecret (Some c) now fetch issued)
    = [] /\
  cachedToken_after (getAccessToken appId clientSecret (Some c) now fetch issued)
    = Some c.
Proof.
  intros Hlt. rewrite getAccessToken_hit by lia. repeat split.
Qed.

Lemma getAccessToken_returns_fresh_cached_token_witness :
  token_result
    (getAccessToken "app" "secret" (Some {| token := "T"; expiresAt := 1000000 |})
       600000 (answers 200 [("access_token", VStr "T2")]) 600001)
  = inr "T".
Proof.
  apply (getAccessToken_returns_fresh_cached_token "app" "secret"
           {| token := "T"; expiresAt := 1000000 |} 600000 600001
           (answers 200 [("access_token", VStr "T2")])).
  simpl. lia.
Defined.

(** C5, as amended.  A call of [getAccessToken] strictly more than 5 minutes
    before the cached expiry issues no request and returns the cached token,
    the cache unchanged; a call in the last 5 minutes before the expiry, at or
    after the expiry, or with no cache, issues exactly one request, the
    refresh request to the token endpoint. *)
Theorem getAccessToken_refreshes_from_5_minutes_before_expiry
    {json : Type} `{JsonRuntime json} (appId clientSecret : string)
    (cachedToken : option Credential) (now issued : Z) (fetch : Fetch json) :
  (forall c : Credential,
      cachedToken = Some c -> 300000 < expiresAt c - now ->
      token_requests
        (getAccessToken appId clientSecret cachedToken now fetch issued) = [] /\
      token_result
        (getAccessToken appId clientSecret cachedToken now fetch issued)
        = inr (token c) /\
      cachedToken_after
        (getAccessToken appId clientSecret cachedToken now fetch issued)
        = cachedToken) /\
  (no_fresh_credential cachedToken now ->
   token_requests (getAccessToken appId clientSecret cachedToken now fetch issued)
     = [token_request appId clientSecret] /\
   url (token_request appId clientSecret) = TOKEN_URL).
Proof.
  split.
  - intros c -> Hlt. rewrite getAccessToken_hit by lia. repeat split.
  - intros Hstale. rewrite getAccessToken_miss by exact Hstale.
    split; [apply refresh_token_requests | reflexivity].
Qed.

Lemma getAccessToken_refreshes_from_5_minutes_before_expiry_witness :
  token_requests
    (getAccessToken "app" "secret" (Some {| token := "T"; expiresAt := 1000000 |})
       600000 (answers 200 [("access_token", VStr "T2")]) 600001) = [] /\
  token_requests
    (getAccessToken "app" "secret" (Some {| token := "T"; expiresAt := 1000000 |})
       1000001 (answers 200 [("access_token", VStr "T2")]) 1000002)
  = [token_request "app" "secret"].
Proof.
  split.
  - apply (proj1 (getAccessToken_refreshes_from_5_minutes_before_expiry
                    "app" "secret"
                    (Some {| token := "T"; expiresAt := 1000000 |}) 600000 600001
                    (answers 200 [("access_token", VStr "T2")]))
             {| token := "T"; expiresAt := 1000000 |}); [reflexivity | simpl; lia].
  - apply (proj2 (getAccessToken_refreshes_from_5_minutes_before_expiry
                    "app" "secret"
                    (Some {| token := "T"; expiresAt := 1000000 |}) 1000001 1000002
                    (answers 200 [("access_token", VStr "T2")]))).
    simpl. lia.
Defined.

(** C5, as stated, fails: a call 100 seconds before the cached expiry, which
    is strictly less than 5 minutes before it, does send a request and returns
    the new token, not the cached one. *)
Lemma getAccessToken_within_margin_counterexample :
  0 < 1000000 - 900000 < 300000 /\
  token_requests
    (getAccessToken "app" "secret" (Some {| token := "T"; expiresAt := 1000000 |})
       900000 (answers 200 [("access_token", VStr "T2")]) 900001)
  = [token_request "app" "secret"] /\
  token_result
    (getAccessToken "app" "secret" (Some {| token := "T"; expiresAt := 1000000 |})
       900000 (answers 200 [("access_token", VStr "T2")]) 900001)
  = inr "T2" /\
  ~ (token_requests
       (getAccessToken "app" "secret"
          (Some {| token := "T"; expiresAt := 1000000 |})
          900000 (answers 200 [("access_token", VStr "T2")]) 900001) = [] /\
     token_result
       (getAccessToken "app" "secret"
          (Some {| token := "T"; expiresAt := 1000000 |})
          900000 (answers 200 [("access_token", VStr "T2")]) 900001)
     = inr "T").
Proof.
  split; [lia|]. split; [reflexivity|]. split; [reflexivity|].
  intros [Hreq _]. discriminate Hreq.
Qed.




(** ** The request wrapper *)





(** ** Text sends *)

Section TextSends.
Variables content : string.

Lemma text_body_has_no_undefined (msgSeq : Z) (msgId : option string) :
  JSON_stringify_obj (text_body content msgSeq msgId)
  = text_body content msgSeq msgId.
Proof.
  unfold text_body, spread_msg_id.
  destruct msgId as [id|]; [destruct (truthy id)|]; reflexivity.
Qed.

Lemma text_body_msg_seq (msgSeq : Z) (msgId : option string) :
  member (text_body content msgSeq msgId) "msg_seq" = Some (VNum msgSeq).
Proof. reflexivity. Qed.

Lemma text_body_msg_id (msgSeq : Z) (id : string) :
  id <> EmptyString ->
  member (text_body content msgSeq (Some id)) "msg_id" = Some (VStr id).
Proof.
  intros Hne. unfold text_body, spread_msg_id.
  now rewrite (truthy_true id Hne).
Qed.

Lemma text_body_no_msg_id (msgSeq : Z) (msgId : option string) :
  msgId = None \/ msgId = Some EmptyString ->
  member (text_body content msgSeq msgId) "msg_id" = None.
Proof. intros [->| ->]; reflexivity. Qed.

Lemma msg_seq_for_reply (id : string) (m : JsMap.t) :
  id <> EmptyString -> msg_seq_for (Some id) m = getNextMsgSeq id m.
Proof. intros Hne. unfold msg_seq_for. now rewrite (truthy_true id Hne). Qed.

Lemma msg_seq_for_proactive (msgId : option string) (m : JsMap.t) :
  msgId = None \/ msgId = Some EmptyString -> msg_seq_for msgId m = (1, m).
Proof. intros [->| ->]; reflexivity. Qed.

Context {json : Type} `{JsonRuntime json}.
Variables accessToken target : string.
Variable fetch : Fetch json.

(** Both sends put [text_body], with the number [msg_seq_for] gives, in
    their one request and leave the tracker as [msg_seq_for] leaves it. *)
Lemma sendC2CMessage_shape (msgId : option string) (m : JsMap.t) :
  request_body
    (send_requests (sendC2CMessage accessToken target content msgId m fetch))
  = Some (text_body content (fst (msg_seq_for msgId m)) msgId) /\
  msgSeqTracker_after (sendC2CMessage accessToken target content msgId m fetch)
  = snd (msg_seq_for msgId m).
Proof.
  unfold sendC2CMessage. destruct (msg_seq_for msgId m) as [n m'].
  unfold apiRequest.
  cbn [send_requests api_requests msgSeqTracker_after request_body
       api_request options body option_map fst snd].
  now rewrite text_body_has_no_undefined.
Qed.

Lemma sendGroupMessage_shape (msgId : option string) (m : JsMap.t) :
  request_body
    (send_requests (sendGroupMessage accessToken target content msgId m fetch))
  = Some (text_body content (fst (msg_seq_for msgId m)) msgId) /\
  msgSeqTracker_after (sendGroupMessage accessToken target content msgId m fetch)
  = snd (msg_seq_for msgId m).
Proof.
  unfold sendGroupMessage. destruct (msg_seq_for msgId m) as [n m'].
  unfold apiRequest.
  cbn [send_requests api_requests msgSeqTracker_after request_body
       api_request options body option_map fst snd].
  now rewrite text_body_has_no_undefined.
Qed.

End TextSends.

(** C8, as amended.  For a direct (C2C) and for a group text send: with a
    non-empty [replyToId] the request body has [msg_id] equal to it and
    [msg_seq] equal to the tracker's next number for it, and the tracker has
    advanced; with [replyToId] absent or empty the body has [msg_seq] 1 and no
    [msg_id] member, and the tracker is untouched. *)
Theorem text_sends_msg_id_and_msg_seq
    {json : Type} `{JsonRuntime json}
    (accessToken target content : string) (msgId : option string)
    (msgSeqTracker : JsMap.t) (fetch : Fetch json) :
  (forall id : string,
      msgId = Some id -> id <> EmptyString ->
      carries (sendC2CMessage accessToken target content msgId msgSeqTracker fetch)
        (Some (VStr id)) (fst (getNextMsgSeq id msgSeqTracker)) /\
      msgSeqTracker_after
        (sendC2CMessage accessToken target content msgId msgSeqTracker fetch)
      = snd (getNextMsgSeq id msgSeqTracker) /\
      carries (sendGroupMessage accessToken target content msgId msgSeqTracker fetch)
        (Some (VStr id)) (fst (getNextMsgSeq id msgSeqTracker)) /\
      msgSeqTracker_after
        (sendGroupMessage accessToken target content msgId msgSeqTracker fetch)
      = snd (getNextMsgSeq id msgSeqTracker)) /\
  (msgId = None \/ msgId = Some EmptyString ->
   carries (sendC2CMessage accessToken target content msgId msgSeqTracker fetch)
     None 1 /\
   msgSeqTracker_after
     (sendC2CMessage accessToken target content msgId msgSeqTracker fetch)
   = msgSeqTracker /\
   carries (sendGroupMessage accessToken target content msgId msgSeqTracker fetch)
     None 1 /\
   msgSeqTracker_after
     (sendGroupMessage accessToken target content msgId msgSeqTracker fetch)
   = msgSeqTracker).
Proof.
  destruct (sendC2CMessage_shape content accessToken target fetch msgId msgSeqTracker)
    as [Hc Hct].
  destruct (sendGroupMessage_shape content accessToken target fetch msgId msgSeqTracker)
    as [Hg Hgt].
  split.
  - intros id -> Hne. rewrite msg_seq_for_reply in * by exact Hne.
    repeat split; try assumption;
      (eexists; split; [eassumption|]; split;
       [now apply text_body_msg_id | apply text_body_msg_seq]).
  - intros Habs. rewrite (msg_seq_for_proactive msgId msgSeqTracker Habs) in *.
    repeat split; try assumption;
      (eexists; split; [eassumption|]; split;
       [now apply text_body_no_msg_id | apply text_body_msg_seq]).
Qed.

Lemma text_sends_msg_id_and_msg_seq_witness :
  carries (sendC2CMessage "tok" "u1" "hello" (Some "m1")
             [("m1", 2)] (answers 200 [("id", VStr "x")]))
    (Some (VStr "m1")) 3 /\
  carries (sendGroupMessage "tok" "g1" "hello" None
             [("m1", 2)] (answers 200 [("id", VStr "x")]))
    None 1.
Proof.
  split.
  - apply (proj1 (text_sends_msg_id_and_msg_seq "tok" "u1" "hello" (Some "m1")
                    [("m1", 2)] (answers 200 [("id", VStr "x")])) "m1");
      [reflexivity | discriminate].
  - apply (proj2 (text_sends_msg_id_and_msg_seq "tok" "g1" "hello" None
                    [("m1", 2)] (answers 200 [("id", VStr "x")]))).
    left. reflexivity.
Defined.

(** C8, as stated, fails: a direct send with the empty string as [replyToId]
    has a reply identifier given, yet its body has no [msg_id] member. *)
Lemma text_send_empty_reply_id_counterexample :
  request_body
    (send_requests
       (sendC2CMessage "tok" "u1" "hello" (Some EmptyString) JsMap.empty
          (answers 200 [("id", VStr "x")])))
  = Some [("content", VStr "hello"); ("msg_type", VNum 0); ("msg_seq", VNum 1)] /\
  ~ carries (sendC2CMessage "tok" "u1" "hello" (Some EmptyString) JsMap.empty
               (answers 200 [("id", VStr "x")]))
      (Some (VStr EmptyString)) (fst (getNextMsgSeq EmptyString JsMap.empty)).
Proof.
  split; [reflexivity|].
  intros (doc & Hbody & Hid & _). cbv in Hbody.
  injection Hbody as <-. discriminate Hid.
Qed.

(** ** Image upload *)

Section Split.
Variable sep : ascii.

Lemma split_without_separator (s : string) :
  contains_char sep s = false -> split sep s = [s].
Proof.
  induction s as [|c s IH]; simpl; [reflexivity|].
  intros Hc. apply orb_false_iff in Hc as [Hc Hs].
  rewrite Hc, (IH Hs). reflexivity.
Qed.

Lemma split_at_first_separator (pre rest : string) :
  contains_char sep pre = false ->
  split sep (pre ++ String sep rest) = (pre :: split sep rest)%list.
Proof.
  induction pre as [|c pre IH]; simpl.
  - intros _. now rewrite Ascii.eqb_refl.
  - intros Hc. apply orb_false_iff in Hc as [Hc Hs].
    rewrite Hc, (IH Hs). reflexivity.
Qed.

End Split.

Lemma data_prefix_is_not_http (s : string) :
  String.prefix "data:" s = true -> String.prefix "http" s = false.
Proof.
  destruct s as [|c s]; [discriminate|].
  change (String.prefix "data:" (String c s))
    with (if ascii_dec "d" c then String.prefix "ata:" s else false).
  change (String.prefix "http" (String c s))
    with (if ascii_dec "h" c then String.prefix "ttp" s else false).
  destruct (ascii_dec "d" c) as [<-|_]; [intros _ | discriminate].
  destruct (ascii_dec "h" "d"); [discriminate | reflexivity].
Qed.

Lemma upload_payload_data (s : string) :
  String.prefix "data:" s = true ->
  upload_payload s = [("file_data", val_of (nth_error (split "," s) 1))].
Proof.
  intros Hd. unfold upload_payload.
  now rewrite (data_prefix_is_not_http s Hd), Hd.
Qed.

Lemma after_first_comma_app (pre rest : string) :
  contains_char "," pre = false ->
  after_first_comma (pre ++ String "," rest) = Some rest.
Proof.
  induction pre as [|c pre IH]; simpl; [reflexivity|].
  intros Hc. apply orb_false_iff in Hc as [Hc Hs]. rewrite Hc. exact (IH Hs).
Qed.

Section Upload.
Context {json : Type} `{JsonRuntime json}.
Variables accessToken imageData : string.
Variable fetch : Fetch json.

Lemma uploadImage_requests :
  api_requests (uploadImage accessToken imageData fetch)
  = [api_request accessToken "POST" "/v2/assets"
       (Some (upload_payload imageData))].
Proof. reflexivity. Qed.

Lemma uploadImage_success (res : Response json) (data : json) :
  fetch (API_BASE ++ "/v2/assets")
        (options (api_request accessToken "POST" "/v2/assets"
                    (Some (upload_payload imageData)))) = inr res ->
  json_result res = inr data -> ok res = true -> is_null data = false ->
  api_result (uploadImage accessToken imageData fetch)
  = inr (prop_string data "id").
Proof.
  intros Hf Hj Hok Hnull. unfold uploadImage, apiRequest.
  cbn [api_result url api_request]. cbn [url api_request] in Hf.
  rewrite Hf, Hj, Hok. cbn [negb]. now rewrite Hnull.
Qed.

End Upload.

(** How [uploadImage] classifies its input, for the inputs on which the
    pieces of the split are not in question: a URL, a data URI with exactly
    one comma, anything else. *)
Lemma upload_payload_by_prefix (imageData : string) :
  (String.prefix "http" imageData = true ->
   upload_payload imageData = [("url", VStr imageData)]) /\
  (String.prefix "data:" imageData = true ->
   forall pre rest : string,
     imageData = pre ++ "," ++ rest -> contains_char "," pre = false ->
     contains_char "," rest = false ->
     upload_payload imageData = [("file_data", VStr rest)] /\
     after_first_comma imageData = Some rest) /\
  (String.prefix "http" imageData = false ->
   String.prefix "data:" imageData = false ->
   upload_payload imageData = [("file_data", VStr imageData)]).
Proof.
  split; [|split].
  - intros Hh. unfold upload_payload. now rewrite Hh.
  - intros Hd pre rest -> Hpre Hrest.
    rewrite (upload_payload_data _ Hd).
    change (pre ++ "," ++ rest) with (pre ++ String "," rest).
    rewrite (split_at_first_separator "," pre rest Hpre). cbn [nth_error].
    rewrite (split_without_separator "," rest Hrest).
    split; [reflexivity | now apply after_first_comma_app].
  - intros Hh Hd. unfold upload_payload. now rewrite Hh, Hd.
Qed.

(** C9.  The claim holds of [uploadImage] for a URL, for a data URI with one
    comma and for any other input, as [upload_payload_by_prefix] shows; it
    fails for a data URI with a second comma.  For ["data:text/plain,a,b"]
    what follows the first comma is ["a,b"], and the request carries
    [file_data] ["a"]: [split(",")[1]] stops at the second comma. *)
Theorem uploadImage_truncates_at_second_comma :
  String.prefix "data:" "data:text/plain,a,b" = true /\
  after_first_comma "data:text/plain,a,b" = Some "a,b" /\
  split "," "data:text/plain,a,b" = ["data:text/plain"; "a"; "b"] /\
  upload_payload "data:text/plain,a,b" = [("file_data", VStr "a")] /\
  request_body
    (api_requests
       (uploadImage "tok" "data:text/plain,a,b"
          (answers 200 [("id", VStr "asset1")])))
  = Some [("file_data", VStr "a")] /\
  upload_payload "data:text/plain,a,b" <> [("file_data", VStr "a,b")].
Proof.
  repeat (split; [reflexivity|]). discriminate.
Qed.

(** C10. For an input that starts with "data:" and has no comma,
    [uploadImage] does not fail before the request: the split has no second
    piece, the payload's [file_data] is [undefined], and the one request that
    is sent has a body without any member, so without image data. *)
Theorem uploadImage_data_uri_without_comma
    {json : Type} `{JsonRuntime json} (accessToken imageData : string)
    (fetch : Fetch json) :
  String.prefix "data:" imageData = true ->
  contains_char "," imageData = false ->
  nth_error (split "," imageData) 1 = None /\
  upload_payload imageData = [("file_data", VUndefined)] /\
  api_requests (uploadImage accessToken imageData fetch)
    = [api_request accessToken "POST" "/v2/assets"
         (Some [("file_data", VUndefined)])] /\
  request_body (api_requests (uploadImage accessToken imageData fetch))
    = Some [].
Proof.
  intros Hd Hc.
  assert (Hnth : nth_error (split "," imageData) 1 = None)
    by now rewrite (split_without_separator "," imageData Hc).
  assert (Hp : upload_payload imageData = [("file_data", VUndefined)])
    by now rewrite (upload_payload_data _ Hd), Hnth.
  split; [exact Hnth|]. split; [exact Hp|].
  split; now rewrite uploadImage_requests, Hp.
Qed.

Lemma uploadImage_data_uri_without_comma_witness :
  request_body
    (api_requests (uploadImage "tok" "data:image/png;base64"
                     (answers 200 [("id", VStr "asset1")])))
  = Some [].
Proof.
  apply (uploadImage_data_uri_without_comma "tok" "data:image/png;base64"
           (answers 200 [("id", VStr "asset1")])); reflexivity.
Defined.

(** * Further properties of the module *)

(** ** The tracker *)

Section TrackerBounds.
Import JsMap JsMapFacts.

Lemma get_Some_In_entry (m : JsMap.t) (k : string) (v : Z) :
  get m k = Some v -> In (k, v) m.
Proof.
  induction m as [|[k' v'] m IH]; simpl; [discriminate|].
  destruct (String.eqb_spec k' k) as [->|_].
  - intros [= ->]. now left.
  - intros Hg. right. exact (IH Hg).
Qed.

Lemma Forall_set (P : string * Z -> Prop) (m : JsMap.t) (k : string) (v : Z) :
  Forall P m -> P (k, v) -> Forall P (set m k v).
Proof.
  intros Hm Hkv. induction Hm as [|[k' v'] m Hx Hm IH]; simpl.
  - now constructor.
  - destruct (String.eqb_spec k' k) as [->|_]; constructor; assumption.
Qed.

Lemma Forall_skipn_of {A : Type} (P : A -> Prop) (n : nat) (l : list A) :
  Forall P l -> Forall P (skipn n l).
Proof.
  rewrite !Forall_forall. intros Hl x Hx. apply Hl.
  exact (in_skipn_in n l x Hx).
Qed.

Lemma calls_on_cons_le (k x : string) (h : list string) :
  (calls_on k h <= calls_on k (x :: h))%nat.
Proof. cbn [calls_on]. destruct (String.eqb x k); lia. Qed.

Lemma next_of_within (h : list string) (m : JsMap.t) (x : string) :
  counters_within h m ->
  1 <= next_of x m <= Z.of_nat (calls_on x (x :: h)).
Proof.
  intros Hm. unfold next_of. cbn [calls_on]. rewrite String.eqb_refl.
  destruct (get m x) as [v|] eqn:Hg; cbn [nullish]; [|lia].
  apply get_Some_In_entry in Hg.
  unfold counters_within in Hm. rewrite Forall_forall in Hm.
  specialize (Hm (x, v) Hg). cbn [fst snd] in Hm. lia.
Qed.

Lemma getNextMsgSeq_within (h : list string) (m : JsMap.t) (x : string) :
  tracker_inv m -> counters_within h m ->
  counters_within (x :: h) (snd (getNextMsgSeq x m)).
Proof.
  intros [Hnd _] Hm.
  assert (Hset : counters_within (x :: h) (set m x (next_of x m))).
  { apply Forall_set.
    - unfold counters_within in *. rewrite Forall_forall in *.
      intros e He. specialize (Hm e He).
      pose proof (calls_on_cons_le (fst e) x h). lia.
    - exact (next_of_within h m x Hm). }
  destruct (overflows x m) eqn:Hov.
  - rewrite getNextMsgSeq_evicts by assumption. now apply Forall_skipn_of.
  - now rewrite getNextMsgSeq_keeps.
Qed.

Lemma run_results_within (id : string) (ids : list string) :
  forall (h : list string) (m : JsMap.t),
    tracker_inv m -> counters_within h m ->
    Forall (fun n => 1 <= n <= Z.of_nat (calls_on id h + calls_on id ids))
           (results_for id ids (fst (run ids m))).
Proof.
  induction ids as [|x ids IH]; intros h m Hinv Hm; [constructor|].
  rewrite run_fst_cons. cbn [results_for].
  pose proof (IH (x :: h) _ (getNextMsgSeq_inv x m Hinv)
                (getNextMsgSeq_within h m x Hinv Hm)) as Hrest.
  pose proof (next_of_within h m x Hm) as Hnext.
  cbn [calls_on] in *. destruct (String.eqb_spec x id) as [->|Hne].
  - rewrite String.eqb_refl in Hnext.
    replace (calls_on id h + S (calls_on id ids))%nat
      with (S (calls_on id h) + calls_on id ids)%nat by lia.
    constructor; [lia | exact Hrest].
  - exact Hrest.
Qed.

Lemma overflow_forgets_oldest (msgId k : string) (m : JsMap.t) :
  tracker_inv m -> overflows msgId m = true ->
  In k (firstn 500 (keys m)) ->
  get (snd (getNextMsgSeq msgId m)) k = None.
Proof.
  intros Hinv Hov Hk.
  destruct (overflow_shape msgId m Hinv Hov) as (_ & Hnin & ->).
  destruct Hinv as [Hnd _]. apply get_None_iff.
  unfold keys. rewrite map_app. intros Hin.
  apply in_app_or in Hin as [Hin|Hin].
  - change (map fst (skipn 500 m)) with (keys (skipn 500 m)) in Hin.
    rewrite keys_skipn in Hin.
    exact (NoDup_split_disjoint 500 (keys m) k Hnd Hk Hin).
  - simpl in Hin. destruct Hin as [<-|[]].
    apply Hnin. rewrite <- (firstn_skipn 500 (keys m)).
    apply in_or_app. now left.
Qed.

End TrackerBounds.

(** X1. Whatever calls were made, the tracker holds at most 1000 identifiers
    and each of them once. *)
Theorem tracker_is_bounded (ids : list string) :
  (JsMap.size (tracker_after ids) <= 1000)%nat /\
  NoDup (JsMap.keys (tracker_after ids)).
Proof.
  destruct (tracker_after_inv ids) as [Hnd Hsz]. split; assumption.
Qed.

(** X2. In every run, a number returned for an identifier is at least 1 and
    at most the number of calls the run makes on that identifier. *)
Theorem results_between_1_and_calls (ids : list string) (id : string) :
  Forall (fun n => 1 <= n <= Z.of_nat (calls_on id ids))
         (results_for id ids (fst (run ids JsMap.empty))).
Proof.
  apply (run_results_within id ids [] JsMap.empty).
  - split; [constructor | unfold JsMap.size, JsMap.empty; simpl; lia].
  - constructor.
Qed.

(** X3. A call on one identifier does not change the counter of another: it
    leaves it as it is, or, only if the call overflows the tracker, removes
    it. *)
Theorem call_on_other_id_keeps_or_evicts
    (ids : list string) (id other : string) :
  other <> id ->
  (overflows other (tracker_after ids) = false ->
   JsMap.get (snd (getNextMsgSeq other (tracker_after ids))) id
   = JsMap.get (tracker_after ids) id) /\
  (JsMap.get (snd (getNextMsgSeq other (tracker_after ids))) id
   = JsMap.get (tracker_after ids) id \/
   JsMap.get (snd (getNextMsgSeq other (tracker_after ids))) id = None).
Proof.
  intros Hne. pose proof (tracker_after_inv ids) as Hinv.
  set (m := tracker_after ids) in *.
  assert (Hkeep : overflows other m = false ->
                  JsMap.get (snd (getNextMsgSeq other m)) id = JsMap.get m id).
  { intros Hov. rewrite getNextMsgSeq_keeps by exact Hov.
    now apply JsMapFacts.get_set_neq. }
  split; [exact Hkeep|].
  destruct (overflows other m) eqn:Hov; [|left; now apply Hkeep].
  destruct (overflow_shape other m Hinv Hov) as (_ & _ & ->).
  destruct Hinv as [Hnd _].
  rewrite JsMapFacts.get_app.
  assert (Hlast : JsMap.get [(other, 1)] id = None).
  { simpl. apply String.eqb_neq in Hne. now rewrite Hne. }
  destruct (in_dec string_dec id (skipn 500 (JsMap.keys m))) as [Hin|Hnin].
  - left. rewrite (get_skipn_recent 500 m id Hnd Hin).
    destruct (JsMap.get m id) as [v|] eqn:Hg; [reflexivity|].
    apply JsMapFacts.get_None_iff in Hg.
    exfalso. exact (Hg (in_skipn_in _ _ _ Hin)).
  - right. rewrite <- JsMapFacts.keys_skipn in Hnin.
    apply JsMapFacts.get_None_iff in Hnin. now rewrite Hnin.
Qed.

Lemma call_on_other_id_keeps_or_evicts_witness :
  JsMap.get (snd (getNextMsgSeq "b" (tracker_after ["a"; "a"; "b"]))) "a"
  = JsMap.get (tracker_after ["a"; "a"; "b"]) "a".
Proof.
  apply (proj1 (call_on_other_id_keeps_or_evicts ["a"; "a"; "b"] "a" "b"
                  ltac:(discriminate))).
  reflexivity.
Defined.

(** X4. A call on an identifier that is already tracked evicts nothing and
    moves nothing: the identifiers and their order stay as they were, so use
    does not make an entry younger. *)
Theorem call_on_tracked_id_keeps_order (ids : list string) (id : string) :
  In id (JsMap.keys (tracker_after ids)) ->
  JsMap.keys (snd (getNextMsgSeq id (tracker_after ids)))
  = JsMap.keys (tracker_after ids) /\
  overflows id (tracker_after ids) = false.
Proof.
  intros Hin. destruct (tracker_after_inv ids) as [_ Hsz].
  set (m := tracker_after ids) in *.
  assert (Hov : overflows id m = false).
  { unfold overflows. apply Nat.ltb_ge.
    now rewrite JsMapFacts.size_set_present. }
  split; [|exact Hov].
  rewrite getNextMsgSeq_keeps by exact Hov.
  now apply JsMapFacts.set_present.
Qed.

Lemma call_on_tracked_id_keeps_order_witness :
  JsMap.keys (snd (getNextMsgSeq "a" (tracker_after ["a"; "b"; "c"])))
  = JsMap.keys (tracker_after ["a"; "b"; "c"]).
Proof.
  apply (proj1 (call_on_tracked_id_keeps_order ["a"; "b"; "c"] "a"
                  ltac:(simpl; tauto))).
Defined.

(** X5. After a call that overflows the tracker, the next call on any of the
    500 oldest identifiers returns 1, whatever its counter was. *)
Theorem evicted_id_restarts_at_1 (ids : list string) (msgId k : string) :
  overflows msgId (tracker_after ids) = true ->
  In k (firstn 500 (JsMap.keys (tracker_after ids))) ->
  fst (getNextMsgSeq k (snd (getNextMsgSeq msgId (tracker_after ids)))) = 1.
Proof.
  intros Hov Hk. rewrite getNextMsgSeq_fst. unfold next_of.
  now rewrite (overflow_forgets_oldest msgId k _ (tracker_after_inv ids) Hov Hk).
Qed.

Lemma evicted_id_restarts_at_1_witness :
  JsMap.get (tracker_after (ids_from 0 1000 ++ ["7"; "7"])) "7" = Some 3 /\
  fst (getNextMsgSeq "7"
         (snd (getNextMsgSeq "1000"
                 (tracker_after (ids_from 0 1000 ++ ["7"; "7"]))))) = 1.
Proof.
  split; [vm_compute; reflexivity|].
  apply (evicted_id_restarts_at_1 (ids_from 0 1000 ++ ["7"; "7"]) "1000" "7").
  - vm_compute. reflexivity.
  - vm_compute. do 7 right. left. reflexivity.
Defined.

(** X6. On a map with distinct keys the eviction loop with [n] rounds removes
    exactly the [n] oldest entries, all of them when there are fewer. *)
Theorem evict_loop_drops_oldest (n : nat) (m : JsMap.t) :
  NoDup (JsMap.keys m) ->
  evict_loop (JsMap.keys m) 0 n m = skipn n m /\
  ((JsMap.size m <= n)%nat -> evict_loop (JsMap.keys m) 0 n m = JsMap.empty).
Proof.
  intros Hnd.
  assert (Heq : evict_loop (JsMap.keys m) 0 n m = skipn n m)
    by exact (evict_loop_skipn n 0 m Hnd).
  split; [exact Heq|].
  intros Hle. rewrite Heq. now apply skipn_all2.
Qed.

Lemma evict_loop_drops_oldest_witness :
  evict_loop ["a"; "b"; "c"] 0 2 [("a", 1); ("b", 4); ("c", 2)]
  = skipn 2 [("a", 1); ("b", 4); ("c", 2)].
Proof.
  apply (proj1 (evict_loop_drops_oldest 2 [("a", 1); ("b", 4); ("c", 2)]
                  ltac:(repeat constructor; simpl; intuition discriminate))).
Defined.

(** ** The token cache *)

(** X7. Whatever the cache, the time and the network, a call of
    [getAccessToken] sends at most one request; when it returns a token, that
    token is the one cached afterwards; when it fails, the cache is as it
    was. *)
Theorem getAccessToken_outcome_and_cache
    {json : Type} `{JsonRuntime json} (appId clientSecret : string)
    (cachedToken : option Credential) (now issued : Z) (fetch : Fetch json) :
  (List.length
     (token_requests
        (getAccessToken appId clientSecret cachedToken now fetch issued))
   <= 1)%nat /\
  (forall tok : string,
      token_result (getAccessToken appId clientSecret cachedToken now fetch issued)
        = inr tok ->
      exists c : Credential,
        cachedToken_after
          (getAccessToken appId clientSecret cachedToken now fetch issued)
          = Some c /\ token c = tok) /\
  (forall e : JsError,
      token_result (getAccessToken appId clientSecret cachedToken now fetch issued)
        = inl e ->
      cachedToken_after
        (getAccessToken appId clientSecret cachedToken now fetch issued)
        = cachedToken).
Proof.
  assert (Hrefresh :
    (List.length
       (token_requests
          (refresh_token appId clientSecret cachedToken fetch issued)) <= 1)%nat /\
    (forall tok : string,
        token_result (refresh_token appId clientSecret cachedToken fetch issued)
          = inr tok ->
        exists c : Credential,
          cachedToken_after
            (refresh_token appId clientSecret cachedToken fetch issued)
            = Some c /\ token c = tok) /\
    (forall e : JsError,
        token_result (refresh_token appId clientSecret cachedToken fetch issued)
          = inl e ->
        cachedToken_after
          (refresh_token appId clientSecret cachedToken fetch issued)
          = cachedToken)).
  { split; [now rewrite refresh_token_requests|].
    split; [|intros e; apply refresh_token_failure].
    unfold refresh_token.
    destruct (fetch _ _) as [err|response]; [discriminate|].
    destruct (json_result response) as [err|data]; [discriminate|].
    destruct (is_null data); [discriminate|].
    destruct (prop_string data "access_token") as [t|]; [|discriminate].
    destruct (negb (truthy t)); [discriminate|].
    cbn [token_result cachedToken_after token].
    intros tok [= <-]. eexists. split; reflexivity. }
  unfold getAccessToken. destruct cachedToken as [c|]; [|exact Hrefresh].
  destruct (now <? expiresAt c - 5 * 60 * 1000); [|exact Hrefresh].
  cbn [token_requests token_result cachedToken_after]. split; [simpl; lia|].
  split; [|discriminate].
  intros tok [= <-]. exists c. split; reflexivity.
Qed.



(** X9. When the endpoint declares a lifetime of 300 seconds or less, the
    token just cached is never served: every later call, at the issuance time
    or after it, sends a refresh request again. *)
Theorem short_lived_token_is_never_served
    {json : Type} `{JsonRuntime json}
    (appId clientSecret appId' clientSecret' : string)
    (cachedToken : option Credential) (now issued now' issued' : Z)
    (fetch fetch' : Fetch json) (response : Response json) (data : json)
    (tok : string) (lifetime : Z) :
  no_fresh_credential cachedToken now ->
  fetch TOKEN_URL (options (token_request appId clientSecret)) = inr response ->
  json_result response = inr data ->
  prop_string data "access_token" = Some tok -> tok <> EmptyString ->
  prop_number data "expires_in" = Some lifetime -> lifetime <= 300 ->
  issued <= now' ->
  token_requests
    (getAccessToken appId' clientSecret'
       (cachedToken_after
          (getAccessToken appId clientSecret cachedToken now fetch issued))
       now' fetch' issued')
  = [token_request appId' clientSecret'].
Proof.
  intros Hstale Hf Hj Hp Hne Hn Hshort Hlater.
  rewrite (getAccessToken_miss appId clientSecret cachedToken now issued fetch Hstale).
  rewrite (refresh_token_success appId clientSecret cachedToken fetch issued
             response data tok Hf Hj Hp Hne).
  cbn [cachedToken_after]. rewrite Hn. cbn [nullish].
  rewrite getAccessToken_miss; [apply refresh_token_requests|].
  cbn [no_fresh_credential expiresAt]. lia.
Qed.

Lemma short_lived_token_is_never_served_witness :
  token_requests
    (getAccessToken "app" "secret"
       (cachedToken_after
          (getAccessToken "app" "secret" None 1000
             (answers 200 [("access_token", VStr "T1"); ("expires_in", VNum 100)])
             1001))
       1002 (answers 200 [("access_token", VStr "T2")]) 1003)
  = [token_request "app" "secret"].
Proof.
  apply (short_lived_token_is_never_served "app" "secret" "app" "secret"
           None 1000 1001 1002 1003
           (answers 200 [("access_token", VStr "T1"); ("expires_in", VNum 100)])
           (answers 200 [("access_token", VStr "T2")])
           {| status := 200;
              json_result :=
                inr [("access_token", VStr "T1"); ("expires_in", VNum 100)] |}
           [("access_token", VStr "T1"); ("expires_in", VNum 100)] "T1" 100);
    try reflexivity; try discriminate; simpl; lia.
Defined.

(** X10. After [clearTokenCache] the next [getAccessToken] sends the refresh
    request whatever the time and whatever was cached, and a failure of that
    request leaves the cache empty. *)
Theorem clearTokenCache_forces_refresh
    {json : Type} `{JsonRuntime json} (appId clientSecret : string)
    (cachedToken : option Credential) (now issued : Z) (fetch : Fetch json) :
  token_requests
    (getAccessToken appId clientSecret (clearTokenCache cachedToken)
       now fetch issued)
  = [token_request appId clientSecret] /\
  (forall e : JsError,
      token_result
        (getAccessToken appId clientSecret (clearTokenCache cachedToken)
           now fetch issued) = inl e ->
      cachedToken_after
        (getAccessToken appId clientSecret (clearTokenCache cachedToken)
           now fetch issued) = None).
Proof.
  unfold clearTokenCache. cbn [getAccessToken].
  split; [apply refresh_token_requests | intros e; apply refresh_token_failure].
Qed.

(** X11. A body whose [access_token] is the empty string is refused like a
    body without one: the call fails with the authentication error and the
    cache is unchanged. *)
Theorem empty_access_token_is_refused
    {json : Type} `{JsonRuntime json} (appId clientSecret : string)
    (cachedToken : option Credential) (now issued : Z) (fetch : Fetch json)
    (response : Response json) (data : json) :
  no_fresh_credential cachedToken now ->
  fetch TOKEN_URL (options (token_request appId clientSecret)) = inr response ->
  json_result response = inr data ->
  prop_string data "access_token" = Some EmptyString ->
  token_result (getAccessToken appId clientSecret cachedToken now fetch issued)
    = inl (Error ("Failed to get access_token: " ++ JSON_stringify data)) /\
  cachedToken_after
    (getAccessToken appId clientSecret cachedToken now fetch issued)
    = cachedToken.
Proof.
  intros Hstale Hf Hj Hp. rewrite getAccessToken_miss by exact Hstale.
  unfold refresh_token. cbn [url token_request].
  rewrite Hf, Hj, (prop_string_not_null data "access_token" EmptyString Hp), Hp.
  split; reflexivity.
Qed.

Lemma empty_access_token_is_refused_witness :
  cachedToken_after
    (getAccessToken "app" "secret" (Some {| token := "T"; expiresAt := 1000 |})
       2000 (answers 200 [("access_token", VStr EmptyString)]) 2001)
  = Some {| token := "T"; expiresAt := 1000 |}.
Proof.
  apply (empty_access_token_is_refused "app" "secret"
           (Some {| token := "T"; expiresAt := 1000 |}) 2000 2001
           (answers 200 [("access_token", VStr EmptyString)])
           {| status := 200;
              json_result := inr [("access_token", VStr EmptyString)] |}
           [("access_token", VStr EmptyString)]);
    try reflexivity. simpl. lia.
Defined.

(** ** The request wrapper and the gateway URL *)

Section WrapperOutcomes.
Context {json : Type} `{JsonRuntime json}.
Variables accessToken method_ path : string.
Variable body_ : option jsobj.
Variable fetch : Fetch json.

Lemma apiRequest_cases :
  match fetch (API_BASE ++ path)
              (options (api_request accessToken method_ path body_)) with
  | inl err =>
      api_result (apiRequest accessToken method_ path body_ fetch)
      = inl (Error ("Network error [" ++ path ++ "]: " ++ err_text err))
  | inr res =>
      match json_result res with
      | inl err =>
          api_result (apiRequest accessToken method_ path body_ fetch)
          = inl (Error ("Failed to parse response [" ++ path ++ "]: "
                        ++ err_text err))
      | inr data =>
          if ok res
          then api_result (apiRequest accessToken method_ path body_ fetch)
               = inr data
          else if is_null data
          then api_result (apiRequest accessToken method_ path body_ fetch)
               = inl (TypeError (null_read_message "message"))
          else api_result (apiRequest accessToken method_ path body_ fetch)
               = inl (Error ("API Error [" ++ path ++ "]: "
                             ++ nullish (prop_text data "message")
                                  (JSON_stringify data)))
      end
  end.
Proof.
  unfold apiRequest. cbn [api_result url api_request].
  destruct (fetch _ _) as [err|res]; [reflexivity|].
  destruct (json_result res) as [err|data]; [reflexivity|].
  destruct (ok res); [reflexivity|]. cbn [negb].
  destruct (is_null data); reflexivity.
Qed.

End WrapperOutcomes.

(** X12. [apiRequest] returns a parsed body exactly when the request got a
    response, the response's body parsed, and its status is in 200-299; the
    body returned is the parsed one, whatever it contains. *)
Theorem apiRequest_succeeds_iff
    {json : Type} `{JsonRuntime json} (accessToken method_ path : string)
    (body_ : option jsobj) (fetch : Fetch json) (data : json) :
  api_result (apiRequest accessToken method_ path body_ fetch) = inr data <->
  exists res : Response json,
    fetch (API_BASE ++ path)
          (options (api_request accessToken method_ path body_)) = inr res /\
    json_result res = inr data /\ ok res = true.
Proof.
  pose proof (apiRequest_cases accessToken method_ path body_ fetch) as Hc.
  destruct (fetch _ _) as [err|res].
  - rewrite Hc. split; [discriminate | intros (r & Hr & _); discriminate].
  - destruct (json_result res) as [err|d] eqn:Hj.
    + rewrite Hc. split; [discriminate|].
      intros (r & [= <-] & Hd & _). congruence.
    + destruct (ok res) eqn:Hok.
      * rewrite Hc. split.
        -- intros [= <-]. exists res. repeat split; assumption.
        -- intros (r & [= <-] & Hd & _). congruence.
      * destruct (is_null d); rewrite Hc;
          (split; [discriminate|]; intros (r & [= <-] & _ & Hk); congruence).
Qed.

Lemma apiRequest_succeeds_iff_witness :
  api_result (apiRequest "tok" "GET" "/gateway" None
                (answers 200 [("url", VStr "wss://gw")]))
  = inr [("url", VStr "wss://gw")].
Proof.
  apply (proj2 (apiRequest_succeeds_iff "tok" "GET" "/gateway" None
                  (answers 200 [("url", VStr "wss://gw")])
                  [("url", VStr "wss://gw")])).
  exists {| status := 200; json_result := inr [("url", VStr "wss://gw")] |}.
  repeat split.
Defined.

(** X13. When the request fails in transport, [apiRequest] fails with the
    network error whose message has the path and the cause in it. *)
Theorem apiRequest_transport_failure
    {json : Type} `{JsonRuntime json} (accessToken method_ path : string)
    (body_ : option jsobj) (fetch : Fetch json) (err : thrown) :
  fetch (API_BASE ++ path)
        (options (api_request accessToken method_ path body_)) = inl err ->
  api_result (apiRequest accessToken method_ path body_ fetch)
    = inl (Error ("Network error [" ++ path ++ "]: " ++ err_text err)) /\
  kind_of (Error ("Network error [" ++ path ++ "]: " ++ err_text err))
    = Some NetworkError /\
  includes ("Network error [" ++ path ++ "]: " ++ err_text err) path /\
  includes ("Network error [" ++ path ++ "]: " ++ err_text err) (err_text err).
Proof.
  intros Hf.
  pose proof (apiRequest_cases accessToken method_ path body_ fetch) as Hc.
  rewrite Hf in Hc. split; [exact Hc|]. split; [reflexivity|]. split.
  - apply includes_middle.
  - rewrite <- (append_assoc "Network error [" path), <- append_assoc.
    apply includes_suffix.
Qed.

Lemma apiRequest_transport_failure_witness :
  api_result (apiRequest "tok" "POST" "/v2/assets" None (unreachable "timeout"))
  = inl (Error "Network error [/v2/assets]: timeout").
Proof.
  apply (apiRequest_transport_failure "tok" "POST" "/v2/assets" None
           (unreachable "timeout") (ThrownError "timeout")).
  reflexivity.
Defined.



(** X15. [getGatewayUrl] sends one GET request for [/gateway] without a
    body.  On a success response whose parsed body is not [null] it returns
    the body's [url], and it returns without failing also when the body has
    no [url]; on a success response with the body [null] it fails with the
    runtime's [TypeError]; and whenever the request wrapper fails it fails
    with the wrapper's error. *)
Theorem getGatewayUrl_outcomes
    {json : Type} `{JsonRuntime json} (accessToken : string)
    (fetch : Fetch json) :
  api_requests (getGatewayUrl accessToken fetch)
    = [api_request accessToken "GET" "/gateway" None] /\
  request_body (api_requests (getGatewayUrl accessToken fetch)) = None /\
  (forall (res : Response json) (data : json),
      fetch (API_BASE ++ "/gateway")
            (options (api_request accessToken "GET" "/gateway" None)) = inr res ->
      json_result res = inr data -> ok res = true ->
      (forall gateway : string,
          prop_string data "url" = Some gateway ->
          api_result (getGatewayUrl accessToken fetch) = inr (Some gateway)) /\
      (is_null data = false -> prop_text data "url" = None ->
       api_result (getGatewayUrl accessToken fetch) = inr None) /\
      (is_null data = true ->
       api_result (getGatewayUrl accessToken fetch)
       = inl (TypeError (null_read_message "url")))) /\
  (forall e : JsError,
      api_result (apiRequest accessToken "GET" "/gateway" None fetch) = inl e ->
      api_result (getGatewayUrl accessToken fetch) = inl e).
Proof.
  split; [reflexivity|]. split; [reflexivity|]. split.
  - intros res data Hf Hj Hok.
    assert (Hr : api_result (apiRequest accessToken "GET" "/gateway" None fetch)
                 = inr data).
    { apply apiRequest_succeeds_iff. exists res. repeat split; assumption. }
    unfold getGatewayUrl. cbn [api_result]. rewrite Hr.
    split; [|split].
    + intros gateway Hu.
      now rewrite (prop_string_not_null data "url" gateway Hu), Hu.
    + intros -> Hu. now rewrite (prop_text_None_string data "url" Hu).
    + now intros ->.
  - intros e He. unfold getGatewayUrl. cbn [api_result]. now rewrite He.
Qed.

Lemma getGatewayUrl_outcomes_witness :
  api_result (getGatewayUrl "tok" (answers 200 [("url", VStr "wss://gw")]))
  = inr (Some "wss://gw") /\
  api_result (getGatewayUrl "tok" (answers 200 [("code", VNum 0)])) = inr None /\
  api_result (getGatewayUrl "tok" (answers_null 200))
  = inl (TypeError "Cannot read properties of null (reading 'url')") /\
  api_result (getGatewayUrl "tok" (unreachable "down"))
  = inl (Error "Network error [/gateway]: down").
Proof.
  split; [|split; [|split]].
  - refine (proj1 (proj1 (proj2 (proj2 (getGatewayUrl_outcomes "tok"
              (answers 200 [("url", VStr "wss://gw")]))))
              {| status := 200; json_result := inr [("url", VStr "wss://gw")] |}
              [("url", VStr "wss://gw")] _ _ _) "wss://gw" _); reflexivity.
  - refine (proj1 (proj2 (proj1 (proj2 (proj2 (getGatewayUrl_outcomes "tok"
              (answers 200 [("code", VNum 0)]))))
              {| status := 200; json_result := inr [("code", VNum 0)] |}
              [("code", VNum 0)] _ _ _)) _ _); reflexivity.
  - refine (proj2 (proj2 (proj1 (proj2 (proj2 (getGatewayUrl_outcomes "tok"
              (answers_null 200))))
              {| status := 200; json_result := inr None |} None _ _ _)) _);
      reflexivity.
  - refine (proj2 (proj2 (proj2 (getGatewayUrl_outcomes "tok"
              (unreachable "down"))))
              (Error "Network error [/gateway]: down") _); reflexivity.
Defined.

(** ** Sends *)

(** X16. A reply consumes its sequence number whether or not the request
    succeeds: the tracker a direct or group send leaves does not depend on
    the network, and with a non-empty [msgId] it holds the number the send
    used. *)
Theorem reply_consumes_seq_even_on_failure
    {json : Type} `{JsonRuntime json}
    (accessToken target content id : string) (ids : list string)
    (fetch fetch' : Fetch json) :
  id <> EmptyString ->
  msgSeqTracker_after
    (sendC2CMessage accessToken target content (Some id) (tracker_after ids) fetch)
  = msgSeqTracker_after
      (sendC2CMessage accessToken target content (Some id) (tracker_after ids)
         fetch') /\
  msgSeqTracker_after
    (sendGroupMessage accessToken target content (Some id) (tracker_after ids) fetch)
  = msgSeqTracker_after
      (sendGroupMessage accessToken target content (Some id) (tracker_after ids)
         fetch') /\
  JsMap.get
    (msgSeqTracker_after
       (sendC2CMessage accessToken target content (Some id) (tracker_after ids)
          fetch)) id
  = Some (nullish (JsMap.get (tracker_after ids) id) 0 + 1) /\
  JsMap.get
    (msgSeqTracker_after
       (sendGroupMessage accessToken target content (Some id) (tracker_after ids)
          fetch)) id
  = Some (nullish (JsMap.get (tracker_after ids) id) 0 + 1).
Proof.
  intros Hne.
  pose proof (fun f => proj2 (sendC2CMessage_shape content accessToken target f
                                (Some id) (tracker_after ids))) as Hc.
  pose proof (fun f => proj2 (sendGroupMessage_shape content accessToken target f
                                (Some id) (tracker_after ids))) as Hg.
  rewrite !Hc, !Hg, (msg_seq_for_reply id _ Hne).
  pose proof (getNextMsgSeq_stores id _ (tracker_after_inv ids)) as Hs.
  rewrite getNextMsgSeq_fst in Hs.
  repeat split; exact Hs.
Qed.

Lemma reply_consumes_seq_even_on_failure_witness :
  send_result (sendC2CMessage "tok" "u1" "hello" (Some "m1")
                 (tracker_after ["m1"]) (unreachable "down"))
  = inl (Error "Network error [/v2/users/u1/messages]: down") /\
  JsMap.get
    (msgSeqTracker_after
       (sendC2CMessage "tok" "u1" "hello" (Some "m1")
          (tracker_after ["m1"]) (unreachable "down"))) "m1"
  = Some 2.
Proof.
  split; [reflexivity|].
  apply (proj1 (proj2 (proj2 (reply_consumes_seq_even_on_failure
                  "tok" "u1" "hello" "m1" ["m1"]
                  (unreachable "down") (unreachable "down")
                  ltac:(discriminate))))).
Defined.

(** X17. Direct and group replies draw from one counter per [msgId]: after a
    direct reply to [msgId], a group reply to the same [msgId] carries the
    next number. *)
Theorem replies_share_counter_across_surfaces
    {json : Type} `{JsonRuntime json}
    (accessToken openid groupOpenid content content' id : string)
    (ids : list string) (fetch fetch' : Fetch json) :
  id <> EmptyString ->
  carries
    (sendC2CMessage accessToken openid content (Some id) (tracker_after ids) fetch)
    (Some (VStr id)) (nullish (JsMap.get (tracker_after ids) id) 0 + 1) /\
  carries
    (sendGroupMessage accessToken groupOpenid content' (Some id)
       (msgSeqTracker_after
          (sendC2CMessage accessToken openid content (Some id)
             (tracker_after ids) fetch))
       fetch')
    (Some (VStr id)) (nullish (JsMap.get (tracker_after ids) id) 0 + 2).
Proof.
  intros Hne.
  destruct (sendC2CMessage_shape content accessToken openid fetch
              (Some id) (tracker_after ids)) as [Hb Ht].
  rewrite (msg_seq_for_reply id _ Hne) in Hb, Ht. rewrite Ht.
  destruct (sendGroupMessage_shape content' accessToken groupOpenid fetch'
              (Some id) (snd (getNextMsgSeq id (tracker_after ids)))) as [Hb' _].
  rewrite (msg_seq_for_reply id _ Hne) in Hb'.
  split.
  - exists (text_body content (fst (getNextMsgSeq id (tracker_after ids)))
              (Some id)).
    split; [exact Hb|]. split; [now apply text_body_msg_id|].
    apply text_body_msg_seq.
  - eexists. split; [exact Hb'|]. split; [now apply text_body_msg_id|].
    rewrite text_body_msg_seq, getNextMsgSeq_fst. unfold next_of at 1.
    rewrite (getNextMsgSeq_stores id _ (tracker_after_inv ids)).
    rewrite getNextMsgSeq_fst. unfold next_of. cbn [nullish].
    do 2 f_equal. lia.
Qed.

Lemma replies_share_counter_across_surfaces_witness :
  carries
    (sendGroupMessage "tok" "g1" "again" (Some "m1")
       (msgSeqTracker_after
          (sendC2CMessage "tok" "u1" "hello" (Some "m1") (tracker_after [])
             (answers 200 [("id", VStr "x")])))
       (answers 200 [("id", VStr "y")]))
    (Some (VStr "m1")) 2.
Proof.
  apply (proj2 (replies_share_counter_across_surfaces
                  "tok" "u1" "g1" "hello" "again" "m1" []
                  (answers 200 [("id", VStr "x")])
                  (answers 200 [("id", VStr "y")]) ltac:(discriminate))).
Defined.

(** X18. A channel text send carries [content] and, only with a non-empty
    [msgId], [msg_id]; it never carries [msg_seq] or [msg_type]. *)
Theorem sendChannelMessage_body
    {json : Type} `{JsonRuntime json}
    (accessToken channelId content : string) (msgId : option string)
    (fetch : Fetch json) :
  exists doc : jsobj,
    request_body
      (api_requests (sendChannelMessage accessToken channelId content msgId fetch))
    = Some doc /\
    member doc "content" = Some (VStr content) /\
    member doc "msg_seq" = None /\
    member doc "msg_type" = None /\
    (forall id : string,
        msgId = Some id -> id <> EmptyString ->
        member doc "msg_id" = Some (VStr id)) /\
    (msgId = None \/ msgId = Some EmptyString -> member doc "msg_id" = None).
Proof.
  unfold sendChannelMessage, apiRequest.
  cbn [api_requests request_body api_request options body option_map].
  eexists. split; [reflexivity|].
  destruct msgId as [id|]; cbn [spread_msg_id].
  - destruct (String.eqb_spec id EmptyString) as [->|Hne].
    + repeat split; try reflexivity. intros id' [= <-] Hne. now elim Hne.
    + rewrite (truthy_true id Hne). repeat split; try reflexivity.
      * now intros id' [= <-] _.
      * intros [Hn|[= ->]]; [discriminate | now elim Hne].
  - repeat split; try reflexivity. discriminate.
Qed.

Lemma sendChannelMessage_body_witness :
  exists doc : jsobj,
    request_body
      (api_requests (sendChannelMessage "tok" "c1" "hello" (Some "m1")
                       (answers 200 [("id", VStr "x")])))
    = Some doc /\
    member doc "msg_id" = Some (VStr "m1").
Proof.
  destruct (sendChannelMessage_body "tok" "c1" "hello" (Some "m1")
              (answers 200 [("id", VStr "x")]))
    as (doc & Hbody & _ & _ & _ & Hid & _).
  exists doc. split; [exact Hbody|].
  apply (Hid "m1"); [reflexivity | discriminate].
Defined.

(** X19. A proactive send carries exactly [content] and [msg_type] 0; the
    text send to the same target without a [msgId] goes to the same URL with
    the same headers and carries the same members followed by [msg_seq] 1. *)
Theorem proactive_send_is_text_send_without_seq
    {json : Type} `{JsonRuntime json}
    (accessToken target content : string) (m : JsMap.t) (fetch : Fetch json) :
  request_body
    (api_requests (sendProactiveC2CMessage accessToken target content fetch))
    = Some [("content", VStr content); ("msg_type", VNum 0)] /\
  request_body
    (api_requests (sendProactiveGroupMessage accessToken target content fetch))
    = Some [("content", VStr content); ("msg_type", VNum 0)] /\
  request_body
    (send_requests (sendC2CMessage accessToken target content None m fetch))
    = Some [("content", VStr content); ("msg_type", VNum 0);
            ("msg_seq", VNum 1)] /\
  request_body
    (send_requests (sendGroupMessage accessToken target content None m fetch))
    = Some [("content", VStr content); ("msg_type", VNum 0);
            ("msg_seq", VNum 1)] /\
  map url (api_requests
             (sendProactiveC2CMessage accessToken target content fetch))
    = map url (send_requests
                 (sendC2CMessage accessToken target content None m fetch)) /\
  map url (api_requests
             (sendProactiveGroupMessage accessToken target content fetch))
    = map url (send_requests
                 (sendGroupMessage accessToken target content None m fetch)) /\
  map (fun r => headers (options r))
      (api_requests (sendProactiveC2CMessage accessToken target content fetch))
    = map (fun r => headers (options r))
          (send_requests
             (sendC2CMessage accessToken target content None m fetch)).
Proof. repeat split. Qed.

(** X20. The image sends to a user and to a group carry the same body:
    [msg_type] 7, [msg_seq] 1 whatever was sent before, the serialised
    [{1: {1: imageUuid}}] as [content], and no [msg_id].  The channel image
    send carries [msg_id] as the empty string, where the channel text send
    with an empty or absent [msgId] carries none. *)
Theorem image_send_bodies
    {json : Type} `{JsonRuntime json} `{JsonWriter}
    (accessToken target imageUuid content : string) (msgId : option string)
    (fetch : Fetch json) :
  request_body
    (api_requests (sendC2CImageMessage accessToken target imageUuid fetch))
  = request_body
      (api_requests (sendGroupImageMessage accessToken target imageUuid fetch)) /\
  (exists doc : jsobj,
      request_body
        (api_requests (sendC2CImageMessage accessToken target imageUuid fetch))
      = Some doc /\
      member doc "msg_type" = Some (VNum 7) /\
      member doc "msg_seq" = Some (VNum 1) /\
      member doc "msg_id" = None /\
      member doc "content"
      = Some (VStr (JSON_stringify_value (image_content imageUuid)))) /\
  (exists doc : jsobj,
      request_body
        (api_requests (sendChannelImageMessage accessToken target imageUuid fetch))
      = Some doc /\
      member doc "msg_id" = Some (VStr EmptyString) /\
      member doc "msg_seq" = None /\
      member doc "content"
      = Some (VStr (JSON_stringify_value (channel_image_content imageUuid)))) /\
  (msgId = None \/ msgId = Some EmptyString ->
   exists doc : jsobj,
     request_body
       (api_requests (sendChannelMessage accessToken target content msgId fetch))
     = Some doc /\
     member doc "msg_id" = None).
Proof.
  split; [reflexivity|]. split; [|split].
  - eexists. repeat split.
  - eexists. repeat split.
  - intros [-> | ->]; eexists; split; reflexivity.
Qed.

Lemma image_send_bodies_witness :
  exists doc : jsobj,
    request_body
      (api_requests (sendChannelMessage "tok" "c1" "hello" (Some EmptyString)
                       (answers 200 [("id", VStr "x")])))
    = Some doc /\
    member doc "msg_id" = None.
Proof.
  apply (proj2 (proj2 (proj2 (image_send_bodies "tok" "c1" "uuid" "hello"
                  (Some EmptyString) (answers 200 [("id", VStr "x")]))))).
  right. reflexivity.
Defined.

(** ** Image upload *)

Section SplitPieces.
Variable sep : ascii.

Lemma split_pieces_have_no_separator (s : string) :
  Forall (fun piece => contains_char sep piece = false) (split sep s).
Proof.
  induction s as [|c s IH]; cbn [split].
  - repeat constructor.
  - destruct (Ascii.eqb c sep) eqn:Hc.
    + constructor; [reflexivity | exact IH].
    + destruct (split sep s) as [|piece pieces].
      * repeat constructor. simpl. now rewrite Hc.
      * inversion IH as [|? ? Hp Hps]; subst.
        constructor; [|exact Hps]. simpl. now rewrite Hc.
Qed.

End SplitPieces.

(** X21. [uploadImage] returns exactly when the upload request got a success
    response with a body that parses and is not [null].  It then returns the
    body's [id], and it returns without failing also when the body has no
    [id].  On a success response with the body [null] it fails with the
    runtime's [TypeError]. *)
Theorem uploadImage_succeeds_iff
    {json : Type} `{JsonRuntime json} (accessToken imageData : string)
    (fetch : Fetch json) :
  ((exists result : option string,
       api_result (uploadImage accessToken imageData fetch) = inr result) <->
   (exists (res : Response json) (data : json),
       fetch (API_BASE ++ "/v2/assets")
             (options (api_request accessToken "POST" "/v2/assets"
                         (Some (upload_payload imageData)))) = inr res /\
       json_result res = inr data /\ ok res = true /\
       is_null data = false)) /\
  (forall (res : Response json) (data : json),
      fetch (API_BASE ++ "/v2/assets")
            (options (api_request accessToken "POST" "/v2/assets"
                        (Some (upload_payload imageData)))) = inr res ->
      json_result res = inr data -> ok res = true ->
      (forall id : string,
          prop_string data "id" = Some id ->
          api_result (uploadImage accessToken imageData fetch) = inr (Some id)) /\
      (is_null data = false -> prop_text data "id" = None ->
       api_result (uploadImage accessToken imageData fetch) = inr None) /\
      (is_null data = true ->
       api_result (uploadImage accessToken imageData fetch)
       = inl (TypeError (null_read_message "id")))).
Proof.
  split.
  - unfold uploadImage. cbn [api_result].
    destruct (api_result (apiRequest accessToken "POST" "/v2/assets"
                            (Some (upload_payload imageData)) fetch))
      as [e|data] eqn:Hr.
    + split; [intros [result Hres]; discriminate|].
      intros (res & data & Hf & Hj & Hok & _).
      assert (Hs : api_result (apiRequest accessToken "POST" "/v2/assets"
                                 (Some (upload_payload imageData)) fetch)
                   = inr data)
        by (apply apiRequest_succeeds_iff; exists res; repeat split; assumption).
      congruence.
    + apply apiRequest_succeeds_iff in Hr as (res & Hf & Hj & Hok).
      destruct (is_null data) eqn:Hnull.
      * split; [intros [result Hres]; discriminate|].
        intros (res' & data' & Hf' & Hj' & _ & Hn').
        rewrite Hf in Hf'. injection Hf' as <-.
        rewrite Hj in Hj'. injection Hj' as <-. congruence.
      * split.
        -- intros _. exists res, data. repeat split; assumption.
        -- intros _. eexists. reflexivity.
  - intros res data Hf Hj Hok.
    assert (Hs : api_result (apiRequest accessToken "POST" "/v2/assets"
                               (Some (upload_payload imageData)) fetch)
                 = inr data)
      by (apply apiRequest_succeeds_iff; exists res; repeat split; assumption).
    unfold uploadImage. cbn [api_result]. rewrite Hs.
    split; [|split].
    + intros id Hid. now rewrite (prop_string_not_null data "id" id Hid), Hid.
    + intros -> Hid. now rewrite (prop_text_None_string data "id" Hid).
    + now intros ->.
Qed.

Lemma uploadImage_succeeds_iff_witness :
  api_result (uploadImage "tok" "AAAA" (answers 200 [("id", VStr "asset1")]))
  = inr (Some "asset1") /\
  api_result (uploadImage "tok" "AAAA" (answers 200 [("code", VNum 0)]))
  = inr None /\
  api_result (uploadImage "tok" "AAAA" (answers_null 200))
  = inl (TypeError "Cannot read properties of null (reading 'id')").
Proof.
  split; [|split].
  - refine (proj1 (proj2 (uploadImage_succeeds_iff "tok" "AAAA"
                            (answers 200 [("id", VStr "asset1")]))
                     {| status := 200; json_result := inr [("id", VStr "asset1")] |}
                     [("id", VStr "asset1")] _ _ _) "asset1" _);
      reflexivity.
  - refine (proj1 (proj2 (proj2 (uploadImage_succeeds_iff "tok" "AAAA"
                            (answers 200 [("code", VNum 0)]))
                     {| status := 200; json_result := inr [("code", VNum 0)] |}
                     [("code", VNum 0)] _ _ _)) _ _);
      reflexivity.
  - refine (proj2 (proj2 (proj2 (uploadImage_succeeds_iff "tok" "AAAA"
                            (answers_null 200))
                     {| status := 200; json_result := inr None |} None _ _ _)) _);
      reflexivity.
Defined.

(** X22. For an input that starts with "data:", the [file_data] that
    [uploadImage] sends, when it sends one, contains no comma. *)
Theorem data_uri_file_data_has_no_comma (imageData data : string) :
  String.prefix "data:" imageData = true ->
  member (JSON_stringify_obj (upload_payload imageData)) "file_data"
    = Some (VStr data) ->
  contains_char "," data = false.
Proof.
  intros Hd. rewrite (upload_payload_data imageData Hd).
  destruct (nth_error (split "," imageData) 1) as [piece|] eqn:Hn;
    cbn; [|discriminate].
  intros [= <-]. apply nth_error_In in Hn.
  pose proof (split_pieces_have_no_separator "," imageData) as Hall.
  rewrite Forall_forall in Hall. exact (Hall piece Hn).
Qed.

Lemma data_uri_file_data_has_no_comma_witness :
  contains_char "," "a" = false.
Proof.
  apply (data_uri_file_data_has_no_comma "data:text/plain,a,b" "a");
    reflexivity.
Defined.
